(** * Tic-tac-toe rules engine and its game area

    A shallow embedding of [src/town/games/TicTacToeGame.ts] (the rules
    engine) and [src/town/games/TicTacToeGameArea.ts] (the command router),
    and the properties the specification states about them.

    The TypeScript methods mutate [this] and may throw.  They are embedded
    in a state-and-exception monad [Eff]: a computation takes the world
    before the call and gives the world after it together with either a
    returned value or the thrown exception.  The world after a throw is part
    of the result, so "a failing call leaves the state as it was" is a
    theorem about the code and not a feature of the encoding.

    A [TicTacToeMove] is a JavaScript object.  [applyMove] assigns the
    [gamePiece] field of the object it is handed and then stores that same
    object in [state.moves], so the move log is a list of references into a
    store of move objects. *)

From stdpp Require Import base decidable option list functions strings gmap.

Set Default Proof Using "Type".

(** ** Identifiers and enumerations *)

Definition PlayerID : Type := string.
Definition GameInstanceID : Type := string.

(** [GameStatus] of [types/CoveyTownSocket]: the three status strings the
    sources use. *)
Inductive GameStatus : Type :=
| IN_PROGRESS
| WAITING_TO_START
| OVER.

(** The two game pieces, the strings ['X'] and ['O']. *)
Inductive GamePiece : Type :=
| PieceX
| PieceO.

(** Modelled from the spec: the type declarations of
    [types/CoveyTownSocket] are not among the sources.  The specification's
    data model gives a move a row and a column in {0,1,2}; the sources index
    three-element arrays with them. *)
Inductive TicTacToeGridPosition : Type :=
| G0
| G1
| G2.

(** The number a grid position stands for. *)
Definition pos (g : TicTacToeGridPosition) : nat :=
  match g with G0 => 0 | G1 => 1 | G2 => 2 end.

Global Instance GameStatus_eq_dec : EqDecision GameStatus.
Proof. solve_decision. Defined.
Global Instance GamePiece_eq_dec : EqDecision GamePiece.
Proof. solve_decision. Defined.
Global Instance TicTacToeGridPosition_eq_dec : EqDecision TicTacToeGridPosition.
Proof. solve_decision. Defined.

(** The message constants of [lib/InvalidParametersError] (their texts are
    not among the sources; only their identity matters). *)
Inductive Message : Type :=
| BOARD_POSITION_NOT_EMPTY_MESSAGE
| GAME_FULL_MESSAGE
| GAME_NOT_IN_PROGRESS_MESSAGE
| MOVE_NOT_YOUR_TURN_MESSAGE
| PLAYER_ALREADY_IN_GAME_MESSAGE
| PLAYER_NOT_IN_GAME_MESSAGE
| GAME_ID_MISSMATCH_MESSAGE
| INVALID_COMMAND_MESSAGE.

(** What a call can throw: the validation failure the sources raise, or the
    [TypeError] JavaScript raises when a property of [undefined] is read. *)
Inductive Exception : Type :=
| InvalidParametersError (message : Message)
| TypeError.

Global Instance Message_eq_dec : EqDecision Message.
Proof. solve_decision. Defined.
Global Instance Exception_eq_dec : EqDecision Exception.
Proof. solve_decision. Defined.

(** ** Computations that mutate a world and may throw *)

Inductive Completion (A : Type) : Type :=
| Return (a : A)
| Throw (e : Exception).
Arguments Return {A} a.
Arguments Throw {A} e.

Definition Eff (S A : Type) : Type := S → S * Completion A.

Definition ret {S A} (a : A) : Eff S A := λ s, (s, Return a).

Definition throw {S A} (e : Exception) : Eff S A := λ s, (s, Throw e).

Definition bind {S A B} (c : Eff S A) (k : A → Eff S B) : Eff S B :=
  λ s, match c s with
       | (s', Return a) => k a s'
       | (s', Throw e) => (s', Throw e)
       end.

Definition gets {S A} (f : S → A) : Eff S A := λ s, (s, Return (f s)).

Definition modify {S} (f : S → S) : Eff S unit := λ s, (f s, Return tt).

Notation "'let*' x ':=' c 'in' k" := (bind c (λ x, k))
  (at level 10, x name, c at level 100, k at level 200).
Notation "c ';;' k" := (bind c (λ _, k))
  (at level 100, k at level 200, right associativity).

(** [if (cond) { body }] with no [else]. *)
Definition when {S} (cond : bool) (body : Eff S unit) : Eff S unit :=
  if cond then body else ret tt.

(** [array.forEach(callback)]: the callback runs on each element in turn;
    an exception it throws ends the iteration. *)
Fixpoint forEach {S A} (callback : A → Eff S unit) (array : list A) : Eff S unit :=
  match array with
  | [] => ret tt
  | a :: rest => callback a ;; forEach callback rest
  end.

(** The world after a call, and how the call completed. *)
Definition after {S A} (r : S * Completion A) : S := fst r.
Definition completion {S A} (r : S * Completion A) : Completion A := snd r.

(** ** Players *)

(** [lib/Player] is not among the sources; the code reads a player's [id]
    and [userName] and compares player objects by identity.  A player
    object is identified here with the record of those two fields. *)
Module Player.
Record t : Type := mk { id : PlayerID; userName : string }.

Global Instance eq_dec : EqDecision t.
Proof. solve_decision. Defined.
End Player.
Abbreviation Player := Player.t.

(** ** Moves *)

Record TicTacToeMove : Type := mkMove {
  gamePiece : GamePiece;
  col : TicTacToeGridPosition;
  row : TicTacToeGridPosition
}.

Global Instance TicTacToeMove_eq_dec : EqDecision TicTacToeMove.
Proof. solve_decision. Defined.

(** A reference to a [TicTacToeMove] object, and the store of all of them. *)
Definition MoveRef : Type := nat.
Abbreviation Store := (MoveRef → TicTacToeMove).

(** [GameMove<TicTacToeMove>]: who moves, in which game, and the move
    object. *)
Record GameMove : Type := mkGameMove {
  playerID : PlayerID;
  gameID : GameInstanceID;
  move : MoveRef
}.

(** The cell of a move. *)
Definition cell (m : TicTacToeMove) : TicTacToeGridPosition * TicTacToeGridPosition :=
  (row m, col m).

(** ** The rules engine: [TicTacToeGame] *)

Module TicTacToeGame.

(** [TicTacToeGameState]: [x], [o] and [winner] are optional. *)
Record TicTacToeGameState : Type := mkState {
  moves : list MoveRef;
  status : GameStatus;
  x : option PlayerID;
  o : option PlayerID;
  winner : option PlayerID
}.

(** A game object: the fields of the base class [Game] the engine uses. *)
Record t : Type := mkGame {
  id : GameInstanceID;
  state : TicTacToeGameState;
  _players : list Player
}.

(** The world of an engine call: the move objects and the game [this]. *)
Record World : Type := mkWorld {
  objects : Store;
  this : t
}.

(** Field assignments. *)
Definition set_moves (v : list MoveRef) (s : TicTacToeGameState) : TicTacToeGameState :=
  mkState v (status s) (x s) (o s) (winner s).
Definition set_status (v : GameStatus) (s : TicTacToeGameState) : TicTacToeGameState :=
  mkState (moves s) v (x s) (o s) (winner s).
Definition set_x (v : option PlayerID) (s : TicTacToeGameState) : TicTacToeGameState :=
  mkState (moves s) (status s) v (o s) (winner s).
Definition set_o (v : option PlayerID) (s : TicTacToeGameState) : TicTacToeGameState :=
  mkState (moves s) (status s) (x s) v (winner s).
Definition set_winner (v : option PlayerID) (s : TicTacToeGameState) : TicTacToeGameState :=
  mkState (moves s) (status s) (x s) (o s) v.
Definition set_gamePiece (v : GamePiece) (m : TicTacToeMove) : TicTacToeMove :=
  mkMove v (col m) (row m).

(** [this.state.f = v] *)
Definition assignState (f : TicTacToeGameState → TicTacToeGameState) : Eff World unit :=
  modify (λ w, mkWorld (objects w)
                 (mkGame (id (this w)) (f (state (this w))) (_players (this w)))).

(** [this._players = v] *)
Definition assignPlayers (f : list Player → list Player) : Eff World unit :=
  modify (λ w, mkWorld (objects w)
                 (mkGame (id (this w)) (state (this w)) (f (_players (this w))))).

(** [ref.gamePiece = v] *)
Definition assignGamePiece (ref : MoveRef) (v : GamePiece) : Eff World unit :=
  modify (λ w, mkWorld (<[ref := set_gamePiece v (objects w ref)]> (objects w)) (this w)).

(** Reading [this.state], [this._players] and a move object. *)
Definition getState : Eff World TicTacToeGameState := gets (λ w, state (this w)).
Definition getPlayers : Eff World (list Player) := gets (λ w, _players (this w)).
Definition deref (ref : MoveRef) : Eff World TicTacToeMove := gets (λ w, objects w ref).

(** The move log as the values the recorded objects hold now. *)
Definition log (w : World) : list TicTacToeMove := objects w <$> moves (state (this w)).

(** [new TicTacToeGame()]; the [id] the base class draws is a parameter. *)
Definition new (gid : GameInstanceID) : t :=
  mkGame gid (mkState [] WAITING_TO_START None None None) [].

(** *** [_moveIsValid] *)

Definition _moveIsValid (mv : GameMove) : Eff World bool :=
  let* s := getState in
  when (bool_decide (status s ≠ IN_PROGRESS))
    (throw (InvalidParametersError GAME_NOT_IN_PROGRESS_MESSAGE)) ;;
  forEach (λ ref,
    let* m := deref ref in
    let* arg := deref (move mv) in
    when (bool_decide (col m = col arg) && bool_decide (row m = row arg))
      (throw (InvalidParametersError BOARD_POSITION_NOT_EMPTY_MESSAGE))) (moves s) ;;
  let* arg := deref (move mv) in
  when (bool_decide (length (moves s) = 0) && bool_decide (gamePiece arg = PieceO))
    (throw (InvalidParametersError MOVE_NOT_YOUR_TURN_MESSAGE)) ;;
  let* objs := gets objects in
  when (bool_decide (0 < length (moves s)) &&
        bool_decide (Some (gamePiece arg) = gamePiece <$> (objs <$> last (moves s))))
    (throw (InvalidParametersError MOVE_NOT_YOUR_TURN_MESSAGE)) ;;
  ret true.

(** *** Win detection *)

(** The loop of [_checkForHorizontalWins]: [ticTacToeBoard] holds one
    array per row; a move of the mover's piece is pushed on the array of
    its row, and the array of the row of every scanned move is tested for
    length 3. *)
Fixpoint horizontalLoop (piece : GamePiece) (ticTacToeBoard : list (list GamePiece))
    (ms : list TicTacToeMove) : bool :=
  match ms with
  | [] => false
  | m :: rest =>
      let ticTacToeBoard' :=
        if bool_decide (gamePiece m = piece)
        then alter (λ a, a ++ [piece]) (pos (row m)) ticTacToeBoard
        else ticTacToeBoard in
      if bool_decide (length (ticTacToeBoard' !!! pos (row m)) = 3) then true
      else horizontalLoop piece ticTacToeBoard' rest
  end.

Definition _checkForHorizontalWins (mv : GameMove) (w : World) : bool :=
  horizontalLoop (gamePiece (objects w (move mv))) [[]; []; []] (log w).

(** The loop of [_checkForVerticalWins]: the same with columns. *)
Fixpoint verticalLoop (piece : GamePiece) (ticTacToeBoard : list (list GamePiece))
    (ms : list TicTacToeMove) : bool :=
  match ms with
  | [] => false
  | m :: rest =>
      let ticTacToeBoard' :=
        if bool_decide (gamePiece m = piece)
        then alter (λ a, a ++ [piece]) (pos (col m)) ticTacToeBoard
        else ticTacToeBoard in
      if bool_decide (length (ticTacToeBoard' !!! pos (col m)) = 3) then true
      else verticalLoop piece ticTacToeBoard' rest
  end.

Definition _checkForVerticalWins (mv : GameMove) (w : World) : bool :=
  verticalLoop (gamePiece (objects w (move mv))) [[]; []; []] (log w).

(** The loop of [_checkForDiagonalWins]: [diagonals[0]] collects the
    mover's moves with [col === row], [diagonals[1]] those with
    [col + row === 2]; each is tested for length 3 right after a push. *)
Fixpoint diagonalLoop (piece : GamePiece) (diagonals : list (list GamePiece))
    (ms : list TicTacToeMove) : bool :=
  match ms with
  | [] => false
  | m :: rest =>
      if bool_decide (gamePiece m = piece) then
        let d1 :=
          if bool_decide (col m = row m)
          then alter (λ a, a ++ [piece]) 0 diagonals else diagonals in
        if bool_decide (col m = row m) && bool_decide (length (d1 !!! 0) = 3) then true
        else
          let d2 :=
            if bool_decide (pos (col m) + pos (row m) = 2)
            then alter (λ a, a ++ [piece]) 1 d1 else d1 in
          if bool_decide (pos (col m) + pos (row m) = 2) && bool_decide (length (d2 !!! 1) = 3)
          then true
          else diagonalLoop piece d2 rest
      else diagonalLoop piece diagonals rest
  end.

Definition _checkForDiagonalWins (mv : GameMove) (w : World) : bool :=
  diagonalLoop (gamePiece (objects w (move mv))) [[]; []] (log w).

Definition _playerHasWon (mv : GameMove) (w : World) : bool :=
  _checkForHorizontalWins mv w || _checkForVerticalWins mv w || _checkForDiagonalWins mv w.

(** *** [applyMove] *)

Definition applyMove (mv : GameMove) : Eff World unit :=
  let* s := getState in
  (if bool_decide (x s = Some (playerID mv))
   then assignGamePiece (move mv) PieceX
   else assignGamePiece (move mv) PieceO) ;;
  let* valid := _moveIsValid mv in
  when valid (
    let* s := getState in
    assignState (set_moves (moves s ++ [move mv])) ;;
    let* won := gets (_playerHasWon mv) in
    if won then
      assignState (set_status OVER) ;;
      assignState (set_winner (Some (playerID mv)))
    else
      let* s := getState in
      when (bool_decide (length (moves s) = 9)) (
        assignState (set_status OVER) ;;
        assignState (set_winner None))).

(** *** [_join] and [_leave] *)

(** [this._players.indexOf(player) !== -1] holds exactly when the player
    is an element of [_players]. *)
Definition _join (player : Player) : Eff World unit :=
  let* players := getPlayers in
  if bool_decide (player ∈ players) then
    throw (InvalidParametersError PLAYER_ALREADY_IN_GAME_MESSAGE)
  else if bool_decide (length players = 2) then
    throw (InvalidParametersError GAME_FULL_MESSAGE)
  else when (bool_decide (length players < 2)) (
    if bool_decide (length players = 0) then
      assignState (set_x (Some (Player.id player)))
    else when (bool_decide (length players = 1)) (
      assignState (set_o (Some (Player.id player))) ;;
      assignState (set_status IN_PROGRESS))).

(** [this._players[i].id]; reading [id] of [undefined] is a [TypeError]. *)
Definition playerIdAt (i : nat) : Eff World PlayerID :=
  let* players := getPlayers in
  match players !! i with
  | Some p => ret (Player.id p)
  | None => throw TypeError
  end.

Definition _leave (player : Player) : Eff World unit :=
  let* players := getPlayers in
  when (bool_decide (player ∉ players))
    (throw (InvalidParametersError PLAYER_NOT_IN_GAME_MESSAGE)) ;;
  let* s := getState in
  if bool_decide (status s = IN_PROGRESS) then
    assignState (set_status OVER) ;;
    let* id0 := playerIdAt 0 in
    let* w := (if bool_decide (id0 = Player.id player) then playerIdAt 1 else playerIdAt 0) in
    assignState (set_winner (Some w))
  else
    assignState (set_status WAITING_TO_START).

(** *** [join] and [leave] of the base class *)

(** Modelled from the spec: the abstract base class [Game] ([./Game]),
    whose public [join] and [leave] call [_join] and [_leave], is not
    among the sources.  The specification has a participant in the game
    from a successful join to a successful leave and reads marks off the
    position in the list of players ("assignment by array position (first
    two joiners)"): [join] appends the player to [_players] once [_join]
    has returned, and [leave] removes the player, matched by [id], once
    [_leave] has returned.  The tests of the sources use them so. *)
Definition join (player : Player) : Eff World unit :=
  _join player ;;
  assignPlayers (λ players, players ++ [player]).

(** Modelled from the spec: the [leave] of the base class [Game], as said
    for [join] above. *)
Definition leave (player : Player) : Eff World unit :=
  _leave player ;;
  assignPlayers (filter (λ p, Player.id p ≠ Player.id player)).

End TicTacToeGame.

(** ** The command router: [TicTacToeGameArea] *)

(** [GameResult]: the scores of a finished game, a JavaScript object keyed
    by user name. *)
Module GameResult.
Record t : Type := mk { gameID : GameInstanceID; scores : gmap string nat }.
End GameResult.
Abbreviation GameResult := GameResult.t.

Module TicTacToeGameArea.

(** The commands an area receives.  [OtherCommand] stands for a command
    of any other kind, named by its [type]. *)
Inductive InteractableCommand : Type :=
| JoinGame
| LeaveGame (gameID : GameInstanceID)
| GameMoveCommand (gameID : GameInstanceID) (move : MoveRef)
| OtherCommand (type : string).

(** [InteractableCommandReturnType]: [{ gameID }] for a join,
    [undefined] for the others. *)
Inductive InteractableCommandReturnType : Type :=
| JoinGameReturn (gameID : GameInstanceID)
| Undefined.

(** The fields of the area the handlers use.  The base classes [GameArea]
    and [InteractableArea] are not among the sources: [game], [history]
    and [occupants] are read as the plain fields [_game], [_history] and
    [_occupants], and [_emitAreaChanged()] is recorded by counting its
    calls. *)
Record t : Type := mkArea {
  _game : option TicTacToeGame.t;
  _history : list GameResult;
  _occupants : list Player;
  areaChangedEmitted : nat
}.

Record World : Type := mkWorld {
  objects : Store;
  this : t
}.

Definition assignGame (g : option TicTacToeGame.t) : Eff World unit :=
  modify (λ w, mkWorld (objects w)
    (mkArea g (_history (this w)) (_occupants (this w)) (areaChangedEmitted (this w)))).

(** [this.history.push(result)] *)
Definition pushHistory (result : GameResult) : Eff World unit :=
  modify (λ w, mkWorld (objects w)
    (mkArea (_game (this w)) (_history (this w) ++ [result]) (_occupants (this w))
            (areaChangedEmitted (this w)))).

Definition _emitAreaChanged : Eff World unit :=
  modify (λ w, mkWorld (objects w)
    (mkArea (_game (this w)) (_history (this w)) (_occupants (this w))
            (S (areaChangedEmitted (this w))))).

(** A method call on [this.game]: the engine runs on the move objects and
    the game of the area and its effects are written back, also when it
    throws.  Calling a method of [undefined] is a [TypeError]. *)
Definition onGame {A} (c : Eff TicTacToeGame.World A) : Eff World A :=
  λ w, match _game (this w) with
       | Some g =>
           let r := c (TicTacToeGame.mkWorld (objects w) g) in
           (mkWorld (TicTacToeGame.objects (after r))
              (mkArea (Some (TicTacToeGame.this (after r))) (_history (this w))
                      (_occupants (this w)) (areaChangedEmitted (this w))),
            completion r)
       | None => (w, Throw TypeError)
       end.

(** [this.occupants[i]], for reading one of its properties. *)
Definition occupantAt (i : nat) : Eff World Player :=
  let* occupants := gets (λ w, _occupants (this w)) in
  match occupants !! i with
  | Some p => ret p
  | None => throw TypeError
  end.

(** The object literal [{ [k1]: v1, [k2]: v2 }]: a later equal key
    overwrites the earlier one. *)
Definition scoresOf (k1 : string) (v1 : nat) (k2 : string) (v2 : nat) : gmap string nat :=
  <[k2 := v2]> (<[k1 := v1]> ∅).

Definition isUndefined {A} (v : option A) : bool :=
  match v with None => true | Some _ => false end.

(** [_handleJoinCommand]; [gid] is the id the game created here draws. *)
Definition _handleJoinCommand (gid : GameInstanceID) (player : Player)
    : Eff World InteractableCommandReturnType :=
  let* g := gets (λ w, _game (this w)) in
  when (isUndefined g) (assignGame (Some (TicTacToeGame.new gid))) ;;
  onGame (TicTacToeGame.join player) ;;
  _emitAreaChanged ;;
  let* g := gets (λ w, _game (this w)) in
  match g with
  | Some g => ret (JoinGameReturn (TicTacToeGame.id g))
  | None => throw TypeError
  end.

(** [_handleLeaveCommand] *)
Definition _handleLeaveCommand (gameID : GameInstanceID) (player : Player)
    : Eff World InteractableCommandReturnType :=
  let* g := gets (λ w, _game (this w)) in
  match g with
  | None => throw (InvalidParametersError GAME_NOT_IN_PROGRESS_MESSAGE)
  | Some g =>
      when (bool_decide (gameID ≠ TicTacToeGame.id g))
        (throw (InvalidParametersError GAME_ID_MISSMATCH_MESSAGE)) ;;
      onGame (TicTacToeGame.leave player) ;;
      _emitAreaChanged ;;
      let* s := onGame TicTacToeGame.getState in
      when (bool_decide (TicTacToeGame.status s = OVER)) (
        let* o0 := occupantAt 0 in
        let* k1 := (if bool_decide (Some (Player.id o0) = TicTacToeGame.winner s)
                    then ret (Player.userName o0)
                    else let* o1 := occupantAt 1 in ret (Player.userName o1)) in
        let* o0 := occupantAt 0 in
        let* k2 := (if bool_decide (Some (Player.id o0) ≠ TicTacToeGame.winner s)
                    then ret (Player.userName o0)
                    else let* o1 := occupantAt 1 in ret (Player.userName o1)) in
        pushHistory (GameResult.mk (TicTacToeGame.id g) (scoresOf k1 1 k2 0))) ;;
      ret Undefined
  end.

(** [_handleMoveCommand]: the [GameMove] handed to the engine carries the
    move object of the command. *)
Definition _handleMoveCommand (gameID : GameInstanceID) (move : MoveRef) (player : Player)
    : Eff World InteractableCommandReturnType :=
  let* g := gets (λ w, _game (this w)) in
  match g with
  | None => throw (InvalidParametersError GAME_NOT_IN_PROGRESS_MESSAGE)
  | Some g =>
      when (bool_decide (TicTacToeGame.id g ≠ gameID))
        (throw (InvalidParametersError GAME_ID_MISSMATCH_MESSAGE)) ;;
      let gameMove := mkGameMove (Player.id player) gameID move in
      onGame (TicTacToeGame.applyMove gameMove) ;;
      _emitAreaChanged ;;
      let* s := onGame TicTacToeGame.getState in
      when (bool_decide (TicTacToeGame.status s = OVER)) (
        let* result :=
          (if bool_decide (TicTacToeGame.winner s ≠ None) then
             let* o0 := occupantAt 0 in
             let* k2 := (if bool_decide (Player.userName o0 ≠ Player.userName player)
                         then ret (Player.userName o0)
                         else let* o1 := occupantAt 1 in ret (Player.userName o1)) in
             ret (GameResult.mk (TicTacToeGame.id g)
                    (scoresOf (Player.userName player) 1 k2 0))
           else
             let* o0 := occupantAt 0 in
             let* o1 := occupantAt 1 in
             ret (GameResult.mk (TicTacToeGame.id g)
                    (scoresOf (Player.userName o0) 0 (Player.userName o1) 0))) in
        pushHistory result) ;;
      ret Undefined
  end.

(** [handleCommand] *)
Definition handleCommand (gid : GameInstanceID) (command : InteractableCommand)
    (player : Player) : Eff World InteractableCommandReturnType :=
  match command with
  | JoinGame => _handleJoinCommand gid player
  | LeaveGame gameID => _handleLeaveCommand gameID player
  | GameMoveCommand gameID move => _handleMoveCommand gameID move player
  | OtherCommand _ => throw (InvalidParametersError INVALID_COMMAND_MESSAGE)
  end.

(** A new area with the given occupants: no game, empty history. *)
Definition new (occupants : list Player) : t := mkArea None [] occupants 0.

End TicTacToeGameArea.

(** ** The vocabulary of the specification *)

Import TicTacToeGame.

(** The eight lines of the board: three rows, three columns, the main
    diagonal ([r = c]) and the anti-diagonal ([r + c = 2]). *)
Inductive Line : Type :=
| RowLine (r : TicTacToeGridPosition)
| ColumnLine (c : TicTacToeGridPosition)
| MainDiagonal
| AntiDiagonal.

Definition on_line (l : Line) (m : TicTacToeMove) : Prop :=
  match l with
  | RowLine r => row m = r
  | ColumnLine c => col m = c
  | MainDiagonal => row m = col m
  | AntiDiagonal => pos (row m) + pos (col m) = 2
  end.

Global Instance on_line_dec l m : Decision (on_line l m).
Proof. destruct l; simpl; apply _. Defined.

(** The number of moves of a mark that a log holds on a line. *)
Definition marks_on (l : Line) (piece : GamePiece) (ms : list TicTacToeMove) : nat :=
  length (filter (λ m, gamePiece m = piece ∧ on_line l m) ms).

(** A line holds three moves of a mark. *)
Definition holds_three (l : Line) (piece : GamePiece) (ms : list TicTacToeMove) : Prop :=
  3 ≤ marks_on l piece ms.

(** Some row, column or diagonal holds three moves of the mark. *)
Definition has_line (piece : GamePiece) (ms : list TicTacToeMove) : Prop :=
  ∃ l, holds_three l piece ms.

(** All three cells of a line are occupied by the mark. *)
Definition line_complete (l : Line) (piece : GamePiece) (ms : list TicTacToeMove) : Prop :=
  ∀ r c, on_line l (mkMove piece c r) → mkMove piece c r ∈ ms.

(** The three cells of a line, as (row, column) pairs. *)
Definition line_cells (l : Line) : list (TicTacToeGridPosition * TicTacToeGridPosition) :=
  match l with
  | RowLine r => [(r, G0); (r, G1); (r, G2)]
  | ColumnLine c => [(G0, c); (G1, c); (G2, c)]
  | MainDiagonal => [(G0, G0); (G1, G1); (G2, G2)]
  | AntiDiagonal => [(G0, G2); (G1, G1); (G2, G0)]
  end.

Definition opposite (piece : GamePiece) : GamePiece :=
  match piece with PieceX => PieceO | PieceO => PieceX end.

(** The mark whose turn it is: X on an empty log, otherwise the mark
    opposite to the one of the last recorded move. *)
Definition turn (ms : list TicTacToeMove) : GamePiece :=
  match last ms with
  | None => PieceX
  | Some m => opposite (gamePiece m)
  end.

(** The mark deduced for a player id: X for the id in seat [x], O for
    every other id. *)
Definition markOf (s : TicTacToeGameState) (pid : PlayerID) : GamePiece :=
  if decide (x s = Some pid) then PieceX else PieceO.

(** The cell of the move object a [GameMove] carries. *)
Definition target (w : World) (mv : GameMove) : TicTacToeGridPosition * TicTacToeGridPosition :=
  cell (objects w (move mv)).

(** The validation of a move in the words of the specification: the first
    failing check, in the order status, cell, turn; [None] when the move is
    accepted. *)
Definition validation (w : World) (mv : GameMove) : option Message :=
  if decide (status (state (this w)) ≠ IN_PROGRESS) then
    Some GAME_NOT_IN_PROGRESS_MESSAGE
  else if decide (target w mv ∈ cell <$> log w) then
    Some BOARD_POSITION_NOT_EMPTY_MESSAGE
  else if decide (markOf (state (this w)) (playerID mv) ≠ turn (log w)) then
    Some MOVE_NOT_YOUR_TURN_MESSAGE
  else None.

(** The public calls of the engine, and the worlds they reach from a newly
    constructed game.  The move objects that callers hand to [applyMove]
    live in the store from the start; between calls nothing else writes to
    them. *)
Inductive Call : Type :=
| Join (player : Player)
| Leave (player : Player)
| ApplyMove (mv : GameMove).

Definition call (c : Call) : Eff World unit :=
  match c with
  | Join player => join player
  | Leave player => leave player
  | ApplyMove mv => applyMove mv
  end.

Definition run (cs : list Call) (w : World) : World :=
  foldl (λ w c, after (call c w)) w cs.

(** The worlds a list of calls passes through, the first and the last
    included. *)
Fixpoint visited (cs : list Call) (w : World) : list World :=
  match cs with
  | [] => [w]
  | c :: cs' => w :: visited cs' (after (call c w))
  end.

Inductive reachable : World → Prop :=
| reachable_new objs gid : reachable (mkWorld objs (new gid))
| reachable_call w c : reachable w → reachable (after (call c w)).

(** A participant of the game: one of its players.  The specification says
    "holds a mark" for this: it reads the marks off the positions in
    [_players]. *)
Definition participant (w : World) (player : Player) : Prop :=
  player ∈ _players (this w).

(** The views of a world the claims speak about. *)
Definition statusOf (w : World) : GameStatus := status (state (this w)).
Definition winnerOf (w : World) : option PlayerID := winner (state (this w)).
Definition playersOf (w : World) : list Player := _players (this w).

(** *** Claims that fail on the code, as they are stated *)

(** "OVER is terminal": no call changes the status of a reachable game
    whose status is OVER. *)
Definition over_is_terminal : Prop :=
  ∀ w c, reachable w → statusOf w = OVER → statusOf (after (call c w)) = OVER.

(** "Otherwise status stays IN_PROGRESS and winner stays unset": what the
    claim says of a move that [applyMove] accepts in a reachable game. *)
Definition accepted_move_settles_as_claimed : Prop :=
  ∀ w mv, reachable w → completion (applyMove mv w) = Return tt →
    let w' := after (applyMove mv w) in
    let piece := markOf (state (this w)) (playerID mv) in
    log w' = log w ++ [mkMove piece (col (objects w (move mv))) (row (objects w (move mv)))] ∧
    (has_line piece (log w') →
       statusOf w' = OVER ∧ winnerOf w' = Some (playerID mv)) ∧
    (¬ has_line piece (log w') → length (log w') = 9 →
       statusOf w' = OVER ∧ winnerOf w' = None) ∧
    (¬ has_line piece (log w') → length (log w') ≠ 9 →
       statusOf w' = IN_PROGRESS ∧ winnerOf w' = None).

(** "Assignment is permanent": once a seat is assigned in a reachable game,
    no later calls change it. *)
Definition assignment_is_permanent : Prop :=
  ∀ w cs pid, reachable w →
    (x (state (this w)) = Some pid → x (state (this (run cs w))) = Some pid) ∧
    (o (state (this w)) = Some pid → o (state (this (run cs w))) = Some pid).

(** "Every validation failure leaves the game state unchanged": after a
    call that throws an [InvalidParametersError] the move log, the status,
    the seats, the winner and the players are what they were. *)
Definition failure_leaves_state_unchanged : Prop :=
  ∀ w c msg, completion (call c w) = Throw (InvalidParametersError msg) →
    log (after (call c w)) = log w ∧ this (after (call c w)) = this w.

(** *** What the code computes, step by step

    The definitions below name the intermediate worlds of [applyMove] and
    the outcome of the checks of [_moveIsValid]; the lemmas of the next part
    prove that the code computes them. *)

(** The move object [r] lies on the cell of the move object [ref]. *)
Definition sameCell (w : World) (ref r : MoveRef) : Prop :=
  col (objects w r) = col (objects w ref) ∧ row (objects w r) = row (objects w ref).

Global Instance sameCell_dec w ref r : Decision (sameCell w ref r).
Proof. unfold sameCell. apply _. Defined.

(** The callback [_moveIsValid] hands to [forEach]. *)
Definition cellCallback (ref : MoveRef) : MoveRef → Eff World unit :=
  λ r, let* m := deref r in
       let* arg := deref ref in
       when (bool_decide (col m = col arg) && bool_decide (row m = row arg))
         (throw (InvalidParametersError BOARD_POSITION_NOT_EMPTY_MESSAGE)).

(** The completion of [_moveIsValid] on the move object [ref]. *)
Definition checked (w : World) (ref : MoveRef) : Completion bool :=
  let s := state (this w) in
  if decide (status s ≠ IN_PROGRESS) then
    Throw (InvalidParametersError GAME_NOT_IN_PROGRESS_MESSAGE)
  else if decide (Exists (sameCell w ref) (moves s)) then
    Throw (InvalidParametersError BOARD_POSITION_NOT_EMPTY_MESSAGE)
  else if decide (length (moves s) = 0 ∧ gamePiece (objects w ref) = PieceO) then
    Throw (InvalidParametersError MOVE_NOT_YOUR_TURN_MESSAGE)
  else if decide (0 < length (moves s) ∧
                  Some (gamePiece (objects w ref))
                  = gamePiece <$> (objects w <$> last (moves s))) then
    Throw (InvalidParametersError MOVE_NOT_YOUR_TURN_MESSAGE)
  else Return true.

(** The world once [applyMove] has written the deduced mark into the move
    object. *)
Definition marked (w : World) (mv : GameMove) : World :=
  mkWorld (<[move mv := set_gamePiece (markOf (state (this w)) (playerID mv))
                                      (objects w (move mv))]> (objects w))
          (this w).

(** The world once the move object is appended to [state.moves]. *)
Definition appended (w : World) (mv : GameMove) : World :=
  mkWorld (objects w)
    (mkGame (id (this w))
            (set_moves (moves (state (this w)) ++ [move mv]) (state (this w)))
            (_players (this w))).

Definition withState (f : TicTacToeGameState → TicTacToeGameState) (w : World) : World :=
  mkWorld (objects w) (mkGame (id (this w)) (f (state (this w))) (_players (this w))).

(** The world once termination is evaluated. *)
Definition settled (w : World) (mv : GameMove) : World :=
  if _playerHasWon mv w then
    withState (set_winner (Some (playerID mv))) (withState (set_status OVER) w)
  else if decide (length (moves (state (this w))) = 9) then
    withState (set_winner None) (withState (set_status OVER) w)
  else w.

(** The nine cells of the board. *)
Definition all_cells : list (TicTacToeGridPosition * TicTacToeGridPosition) :=
  [(G0, G0); (G0, G1); (G0, G2); (G1, G0); (G1, G1); (G1, G2); (G2, G0); (G2, G1); (G2, G2)].

(** *** Sample worlds *)

Definition alice : Player := Player.mk "p1" "alice".
Definition bob : Player := Player.mk "p2" "bob".
Definition carol : Player := Player.mk "p3" "carol".

(** Move objects 0 to 8 lie on the nine cells in row-major order. *)
Definition sampleObjects : Store :=
  λ r, match r with
       | 0 => mkMove PieceO G0 G0
       | 1 => mkMove PieceO G1 G0
       | 2 => mkMove PieceO G2 G0
       | 3 => mkMove PieceO G0 G1
       | 4 => mkMove PieceO G1 G1
       | 5 => mkMove PieceO G2 G1
       | 6 => mkMove PieceO G0 G2
       | 7 => mkMove PieceO G1 G2
       | _ => mkMove PieceO G2 G2
       end.

Definition newWorld : World := mkWorld sampleObjects (new "g").

(** Both seats taken, no move made. *)
Definition started : World := run [Join alice; Join bob] newWorld.

(** *** Views of the area *)

(** Short names for the router and its commands. *)
Abbreviation AreaWorld := TicTacToeGameArea.World.
Abbreviation handleCommand := TicTacToeGameArea.handleCommand.
Abbreviation JoinGame := TicTacToeGameArea.JoinGame.
Abbreviation LeaveGame := TicTacToeGameArea.LeaveGame.
Abbreviation GameMoveCommand := TicTacToeGameArea.GameMoveCommand.
Abbreviation OtherCommand := TicTacToeGameArea.OtherCommand.
Abbreviation Undefined := TicTacToeGameArea.Undefined.
Abbreviation scoresOf := TicTacToeGameArea.scoresOf.

(** The game, the occupants and the ledger of the area. *)
Abbreviation gameOf w := (TicTacToeGameArea._game (TicTacToeGameArea.this w)).
Abbreviation occupantsOf w := (TicTacToeGameArea._occupants (TicTacToeGameArea.this w)).
Abbreviation historyOf w := (TicTacToeGameArea._history (TicTacToeGameArea.this w)).

(** The engine world a handler runs the game [g] of the area in. *)
Definition engineWorld (w : AreaWorld) (g : TicTacToeGame.t) : World :=
  mkWorld (TicTacToeGameArea.objects w) g.

(** The status and the winner of the game of the area, when there is one. *)
Definition statusIn (w : AreaWorld) : option GameStatus :=
  (λ g, status (state g)) <$> gameOf w.
Definition winnerIn (w : AreaWorld) : option (option PlayerID) :=
  (λ g, winner (state g)) <$> gameOf w.


(** An area with the sample move objects and the given occupants. *)
Definition areaWorld (occupants : list Player) : AreaWorld :=
  TicTacToeGameArea.mkWorld sampleObjects (TicTacToeGameArea.new occupants).

(** The commands of a list, handled in turn; a game created on the way
    draws the id "g". *)
Definition handle (commands : list (TicTacToeGameArea.InteractableCommand * Player))
    (w : AreaWorld) : AreaWorld :=
  foldl (λ w cp, after (handleCommand "g" cp.1 cp.2 w)) w commands.

Definition dave : Player := Player.mk "p4" "dave".

(** ** A second version of the engine ([src/unnamed/part_002])

    The file holds the same class with another win detection, a tie test of
    its own and a [_leave] that goes by the number of players.  Its state,
    its constructor and its [_join] are those of [TicTacToeGame]. *)

Module TicTacToeGameB.

(** [_moveIsValid(move, moves)]: the move object and the array to scan are
    parameters; the turn tests read [this.state.moves]. *)
Definition _moveIsValid (ref : MoveRef) (moves : list MoveRef) : Eff World bool :=
  let* s := getState in
  when (bool_decide (status s ≠ IN_PROGRESS))
    (throw (InvalidParametersError GAME_NOT_IN_PROGRESS_MESSAGE)) ;;
  forEach (λ r,
    let* m := deref r in
    let* arg := deref ref in
    when (bool_decide (col m = col arg) && bool_decide (row m = row arg))
      (throw (InvalidParametersError BOARD_POSITION_NOT_EMPTY_MESSAGE))) moves ;;
  let* s := getState in
  let* arg := deref ref in
  when (bool_decide (length (TicTacToeGame.moves s) = 0) && bool_decide (gamePiece arg = PieceO))
    (throw (InvalidParametersError MOVE_NOT_YOUR_TURN_MESSAGE)) ;;
  let* objs := gets objects in
  when (bool_decide (0 < length (TicTacToeGame.moves s)) &&
        bool_decide (Some (gamePiece arg)
                     = gamePiece <$> (objs <$> last (TicTacToeGame.moves s))))
    (throw (InvalidParametersError MOVE_NOT_YOUR_TURN_MESSAGE)) ;;
  ret true.

(** One step on a diagonal array: it is emptied when its last element is
    another piece (the piece at hand is then not stored), otherwise the
    piece is pushed. *)
Definition pushOrReset (diagonal : list GamePiece) (piece : GamePiece) : list GamePiece :=
  if bool_decide (0 < length diagonal) && bool_decide (last diagonal ≠ Some piece)
  then []
  else diagonal ++ [piece].

(** The inner loop of [_playerHasWon]: the later moves of the piece of
    [mi] in its column and in its row are added to the two counters. *)
Fixpoint countLoop (mi : TicTacToeMove) (countInColumn countInRow : nat)
    (later : list TicTacToeMove) : nat * nat :=
  match later with
  | [] => (countInColumn, countInRow)
  | mj :: rest =>
      let countInColumn' :=
        if bool_decide (col mj = col mi) && bool_decide (gamePiece mj = gamePiece mi)
        then countInColumn + 1 else countInColumn in
      let countInRow' :=
        if bool_decide (row mj = row mi) && bool_decide (gamePiece mj = gamePiece mi)
        then countInRow + 1 else countInRow in
      countLoop mi countInColumn' countInRow' rest
  end.

(** The outer loop of [_playerHasWon]. *)
Fixpoint hasWonLoop (topLeftDiagonals topRightDiagonals : list GamePiece)
    (ms : list TicTacToeMove) : bool :=
  match ms with
  | [] => false
  | mi :: later =>
      let topLeftDiagonals' :=
        if bool_decide (col mi = row mi)
        then pushOrReset topLeftDiagonals (gamePiece mi) else topLeftDiagonals in
      let topRightDiagonals' :=
        if bool_decide (pos (col mi) + pos (row mi) = 2)
        then pushOrReset topRightDiagonals (gamePiece mi) else topRightDiagonals in
      let counts := countLoop mi 1 1 later in
      if bool_decide (counts.2 = 3) || bool_decide (counts.1 = 3)
         || bool_decide (length topLeftDiagonals' = 3)
         || bool_decide (length topRightDiagonals' = 3)
      then true
      else hasWonLoop topLeftDiagonals' topRightDiagonals' later
  end.

Definition _playerHasWon (moves : list MoveRef) (w : World) : bool :=
  hasWonLoop [] [] (objects w <$> moves).

Definition _gameHasTied (moves : list MoveRef) : bool :=
  bool_decide (length moves = 9).

Definition applyMove (mv : GameMove) : Eff World unit :=
  let* s := getState in
  (if bool_decide (x s = Some (playerID mv))
   then assignGamePiece (move mv) PieceX
   else assignGamePiece (move mv) PieceO) ;;
  let* s := getState in
  let* valid := _moveIsValid (move mv) (moves s) in
  when valid (
    let* s := getState in
    assignState (set_moves (moves s ++ [move mv])) ;;
    let* s := getState in
    let* won := gets (_playerHasWon (moves s)) in
    if won then
      assignState (set_status OVER) ;;
      assignState (set_winner (Some (playerID mv)))
    else
      let* s := getState in
      when (_gameHasTied (moves s)) (
        assignState (set_status OVER) ;;
        assignState (set_winner None))).

(** [_leave]: the status is reset with one player in the game, and the
    game is forfeited with two, whatever the status is. *)
Definition _leave (player : Player) : Eff World unit :=
  let* players := getPlayers in
  when (bool_decide (player ∉ players))
    (throw (InvalidParametersError PLAYER_NOT_IN_GAME_MESSAGE)) ;;
  if bool_decide (length players = 1) then
    assignState (set_status WAITING_TO_START)
  else when (bool_decide (length players = 2)) (
    assignState (set_status OVER) ;;
    let* id0 := playerIdAt 0 in
    let* w := (if bool_decide (id0 = Player.id player) then playerIdAt 1 else playerIdAt 0) in
    assignState (set_winner (Some w))).

End TicTacToeGameB.

(** ** A second version of the router ([src/unnamed/part_000])

    The file holds the same class; its handlers are those of
    [TicTacToeGameArea] but for the scores a leave records. *)

Module TicTacToeGameAreaB.

Definition _handleLeaveCommand (gameID : GameInstanceID) (player : Player)
    : Eff TicTacToeGameArea.World TicTacToeGameArea.InteractableCommandReturnType :=
  let* g := gets (λ w, TicTacToeGameArea._game (TicTacToeGameArea.this w)) in
  match g with
  | None => throw (InvalidParametersError GAME_NOT_IN_PROGRESS_MESSAGE)
  | Some g =>
      when (bool_decide (gameID ≠ TicTacToeGame.id g))
        (throw (InvalidParametersError GAME_ID_MISSMATCH_MESSAGE)) ;;
      TicTacToeGameArea.onGame (TicTacToeGame.leave player) ;;
      TicTacToeGameArea._emitAreaChanged ;;
      let* s := TicTacToeGameArea.onGame TicTacToeGame.getState in
      when (bool_decide (TicTacToeGame.status s = OVER)) (
        let* o0 := TicTacToeGameArea.occupantAt 0 in
        let* k1 := (if bool_decide (Player.userName o0 ≠ Player.userName player)
                    then ret (Player.userName o0)
                    else let* o1 := TicTacToeGameArea.occupantAt 1 in
                         ret (Player.userName o1)) in
        TicTacToeGameArea.pushHistory
          (GameResult.mk (TicTacToeGame.id g)
             (TicTacToeGameArea.scoresOf k1 1 (Player.userName player) 0))) ;;
      ret TicTacToeGameArea.Undefined
  end.

End TicTacToeGameAreaB.

(** *** Counting along a run *)

(** The number of [applyMove] calls of a run that return. *)
Fixpoint acceptedMoves (cs : list Call) (w : World) : nat :=
  match cs with
  | [] => 0
  | c :: cs' =>
      (match c, completion (call c w) with
       | ApplyMove _, Return _ => 1
       | _, _ => 0
       end) + acceptedMoves cs' (after (call c w))
  end.

(** The number of area changes emitted. *)
Abbreviation emittedOf w :=
  (TicTacToeGameArea.areaChangedEmitted (TicTacToeGameArea.this w)).

(** *** Proof automation *)

(** Case analysis on every [decide] of the goal. *)
Ltac case_decides :=
  repeat match goal with
         | |- context [decide ?P] => destruct (decide P)
         end;
  try (exfalso; intuition congruence).

(** Unfolding the engine calls and the monad. *)
Ltac eff_unfold :=
  unfold join, leave, _join, _leave, playerIdAt, bind, getPlayers, getState, gets,
    when, throw, ret, assignState, assignPlayers, modify, after, completion;
  cbn beta iota zeta.

(** Unfolding the handlers of the area. *)
Ltac area_unfold :=
  unfold TicTacToeGameArea.handleCommand, TicTacToeGameArea._handleLeaveCommand,
    TicTacToeGameArea._handleMoveCommand, TicTacToeGameArea._handleJoinCommand,
    TicTacToeGameArea.onGame, TicTacToeGameArea._emitAreaChanged,
    TicTacToeGameArea.pushHistory, TicTacToeGameArea.occupantAt,
    TicTacToeGameArea.assignGame, TicTacToeGameArea.isUndefined, engineWorld,
    bind, gets, modify, when, throw, ret, getState, after, completion;
  cbn beta iota zeta.

(** * Properties *)

(** ** Running the monad *)

Lemma bind_Return {S A B} (c : Eff S A) (k : A → Eff S B) s s' a :
  c s = (s', Return a) → bind c k s = k a s'.
Proof. unfold bind. by intros ->. Qed.

(** ** [_moveIsValid] *)

Lemma cellCallback_run ref r w :
  cellCallback ref r w =
    (w, if decide (sameCell w ref r)
        then Throw (InvalidParametersError BOARD_POSITION_NOT_EMPTY_MESSAGE)
        else Return tt).
Proof.
  unfold cellCallback, sameCell, bind, deref, gets, when, throw, ret.
  repeat case_bool_decide; simpl; case_decide; tauto.
Qed.

Lemma forEach_cells (ref : MoveRef) (refs : list MoveRef) (w : World) :
  forEach (cellCallback ref) refs w
  = (w, if decide (Exists (sameCell w ref) refs)
        then Throw (InvalidParametersError BOARD_POSITION_NOT_EMPTY_MESSAGE)
        else Return tt).
Proof.
  induction refs as [|r refs IH]; [done|].
  cbn [forEach]. unfold bind. rewrite cellCallback_run.
  destruct (decide (sameCell w ref r)) as [Hr|Hr].
  - rewrite decide_True; [done|by left].
  - rewrite IH. destruct (decide (Exists _ refs)) as [He|He].
    + rewrite decide_True; [done|by right].
    + rewrite decide_False; [done|]. rewrite Exists_cons. tauto.
Qed.

Lemma _moveIsValid_run mv w : _moveIsValid mv w = (w, checked w (move mv)).
Proof.
  unfold _moveIsValid, checked.
  change (forEach _ (moves ?s)) with (forEach (cellCallback (move mv)) (moves s)).
  unfold bind at 1. unfold getState, gets. cbn beta iota.
  unfold bind at 1. unfold when at 1.
  case_bool_decide as Hs; [by rewrite decide_True|]. rewrite decide_False by (intros ?; congruence).
  unfold ret at 1. cbn beta iota.
  unfold bind at 1. rewrite forEach_cells.
  destruct (decide (Exists _ _)) as [He|He]; [done|].
  unfold bind, deref, gets, when, throw, ret. cbn beta iota.
  rewrite <- !bool_decide_and, !bool_decide_decide.
  repeat (destruct (decide _); try done).
  all: simpl; try case_bool_decide; simpl; try done; tauto.
Qed.

(** ** [applyMove], step by step *)

Lemma applyMove_run mv w :
  applyMove mv w =
    match checked (marked w mv) (move mv) with
    | Throw e => (marked w mv, Throw e)
    | Return true => (settled (appended (marked w mv) mv) mv, Return tt)
    | Return false => (marked w mv, Return tt)
    end.
Proof.
  unfold applyMove.
  unfold bind at 1. unfold getState at 1, gets at 1. cbn beta iota.
  assert (Hm : (if bool_decide (x (state (this w)) = Some (playerID mv))
                then assignGamePiece (move mv) PieceX
                else assignGamePiece (move mv) PieceO) w = (marked w mv, Return tt)).
  { unfold marked, markOf, assignGamePiece, modify.
    case_bool_decide; [by rewrite decide_True|by rewrite decide_False]. }
  rewrite (bind_Return _ _ _ _ _ Hm).
  unfold bind at 1. rewrite _moveIsValid_run.
  destruct (checked (marked w mv) (move mv)) as [[|]|e]; [|done..].
  unfold when, bind, getState, gets, assignState, modify, ret. cbn beta iota.
  unfold settled. fold (appended (marked w mv) mv).
  destruct (_playerHasWon mv (appended (marked w mv) mv)); [done|].
  destruct (decide (length (moves (state (this (appended (marked w mv) mv)))) = 9)) as [H9|H9].
  - by rewrite (bool_decide_eq_true_2 _ H9).
  - by rewrite (bool_decide_eq_false_2 _ H9).
Qed.

(** ** Win detection: the loops count the marks on the lines *)

Lemma marks_on_nil l piece : marks_on l piece [] = 0.
Proof. done. Qed.

Lemma marks_on_cons l piece m ms :
  marks_on l piece (m :: ms) =
    (if decide (gamePiece m = piece ∧ on_line l m) then 1 else 0) + marks_on l piece ms.
Proof.
  unfold marks_on. rewrite filter_cons. by case_decide.
Qed.

Lemma horizontalLoop_count piece a b c ms :
  length a < 3 → length b < 3 → length c < 3 →
  horizontalLoop piece [a; b; c] ms = true ↔
    3 ≤ length a + marks_on (RowLine G0) piece ms ∨
    3 ≤ length b + marks_on (RowLine G1) piece ms ∨
    3 ≤ length c + marks_on (RowLine G2) piece ms.
Proof.
  revert a b c. induction ms as [|m ms IH]; intros a b c Ha Hb Hc.
  - rewrite !marks_on_nil. simpl. split; [intros ?; discriminate|lia].
  - cbn [horizontalLoop]. rewrite !marks_on_cons.
    destruct m as [p cc rr]. cbn [gamePiece row col on_line].
    destruct (decide (p = piece)) as [->|Hp].
    + rewrite !(bool_decide_eq_true_2 (piece = piece)) by done.
      destruct rr; cbn [pos alter list_alter lookup_total list_lookup_total];
        rewrite ?length_app; cbn [length]; case_decides;
        case_bool_decide as H3; try (split; [intros _|done]; lia).
      all: rewrite IH by (rewrite ?length_app; simpl; lia).
      all: rewrite ?length_app; simpl; lia.
    + rewrite !(bool_decide_eq_false_2 (p = piece)) by done.
      case_decides.
      destruct rr; cbn [pos lookup_total list_lookup_total];
        (rewrite bool_decide_eq_false_2 by lia); rewrite IH by done; simpl; lia.
Qed.

Lemma verticalLoop_count piece a b c ms :
  length a < 3 → length b < 3 → length c < 3 →
  verticalLoop piece [a; b; c] ms = true ↔
    3 ≤ length a + marks_on (ColumnLine G0) piece ms ∨
    3 ≤ length b + marks_on (ColumnLine G1) piece ms ∨
    3 ≤ length c + marks_on (ColumnLine G2) piece ms.
Proof.
  revert a b c. induction ms as [|m ms IH]; intros a b c Ha Hb Hc.
  - rewrite !marks_on_nil. simpl. split; [intros ?; discriminate|lia].
  - cbn [verticalLoop]. rewrite !marks_on_cons.
    destruct m as [p cc rr]. cbn [gamePiece row col on_line].
    destruct (decide (p = piece)) as [->|Hp].
    + rewrite !(bool_decide_eq_true_2 (piece = piece)) by done.
      destruct cc; cbn [pos alter list_alter lookup_total list_lookup_total];
        rewrite ?length_app; cbn [length]; case_decides;
        case_bool_decide as H3; try (split; [intros _|done]; lia).
      all: rewrite IH by (rewrite ?length_app; simpl; lia).
      all: rewrite ?length_app; simpl; lia.
    + rewrite !(bool_decide_eq_false_2 (p = piece)) by done.
      case_decides.
      destruct cc; cbn [pos lookup_total list_lookup_total];
        (rewrite bool_decide_eq_false_2 by lia); rewrite IH by done; simpl; lia.
Qed.

Lemma diagonalLoop_count piece a b ms :
  length a < 3 → length b < 3 →
  diagonalLoop piece [a; b] ms = true ↔
    3 ≤ length a + marks_on MainDiagonal piece ms ∨
    3 ≤ length b + marks_on AntiDiagonal piece ms.
Proof.
  revert a b. induction ms as [|m ms IH]; intros a b Ha Hb.
  - rewrite !marks_on_nil. simpl. split; [intros ?; discriminate|lia].
  - cbn [diagonalLoop]. rewrite !marks_on_cons.
    destruct m as [p cc rr]. cbn [gamePiece row col on_line].
    destruct (decide (p = piece)) as [->|Hp].
    + rewrite !(bool_decide_eq_true_2 (piece = piece)) by done.
      destruct cc, rr; cbn [pos]; case_decides;
        repeat (first [rewrite bool_decide_eq_true_2 by (done || lia)
                      |rewrite bool_decide_eq_false_2 by (done || lia)]);
        cbn [alter list_alter lookup_total list_lookup_total andb];
        repeat case_bool_decide; cbn [andb];
        cbn [lookup_total list_lookup_total] in *;
        rewrite ?length_app in *; cbn [length] in *.
      all: try (split; [intros _|done]; lia).
      all: rewrite IH by (rewrite ?length_app; simpl; lia).
      all: rewrite ?length_app; simpl; lia.
    + rewrite !(bool_decide_eq_false_2 (p = piece)) by done.
      case_decides. rewrite IH by done. simpl. lia.
Qed.

Lemma _playerHasWon_has_line mv w :
  _playerHasWon mv w = true ↔ has_line (gamePiece (objects w (move mv))) (log w).
Proof.
  unfold _playerHasWon, _checkForHorizontalWins, _checkForVerticalWins,
    _checkForDiagonalWins, has_line, holds_three.
  rewrite !orb_true_iff, horizontalLoop_count, verticalLoop_count, diagonalLoop_count
    by (simpl; lia).
  simpl. split.
  - intros [[[H|[H|H]]|[H|[H|H]]]|[H|H]]; eauto.
  - intros [[[| |]|[| |]| |] H]; tauto.
Qed.

(** ** Lines and cells *)

Lemma on_line_cells l m : on_line l m ↔ cell m ∈ line_cells l.
Proof.
  destruct m as [p c r]. unfold cell. cbn [row col].
  destruct l as [r'|c'| |]; cbn [on_line line_cells row col];
    rewrite !elem_of_cons, elem_of_nil.
  - destruct r, r', c; intuition (congruence || done).
  - destruct r, c', c; intuition (congruence || done).
  - destruct r, c; intuition (congruence || done).
  - destruct r, c; cbn [pos]; intuition (congruence || lia || done).
Qed.

Lemma NoDup_line_cells l : NoDup (line_cells l).
Proof.
  destruct l as [[]|[]| |]; cbn [line_cells];
    repeat (apply NoDup_cons; split; [rewrite ?elem_of_cons, ?elem_of_nil; intuition congruence|]);
    apply NoDup_nil_2.
Qed.

(** In a log without two moves on one cell, a line holds three moves of a
    mark exactly when its three cells are occupied by that mark. *)
Lemma holds_three_complete l piece ms :
  NoDup (cell <$> ms) → holds_three l piece ms ↔ line_complete l piece ms.
Proof.
  intros Hnd. unfold holds_three, marks_on, line_complete.
  set (f := filter (λ m, gamePiece m = piece ∧ on_line l m) ms).
  split.
  - intros Hlen r c Hon.
    assert (Hperm : cell <$> f ≡ₚ line_cells l).
    { apply submseteq_length_Permutation.
      - apply NoDup_submseteq.
        + eapply sublist_NoDup; [exact Hnd|]. apply fmap_sublist, sublist_filter.
        + intros cl (m & -> & Hm)%list_elem_of_fmap.
          apply list_elem_of_filter in Hm as [[_ Hm] _]. by apply on_line_cells.
      - rewrite length_fmap. by destruct l as [[]|[]| |]. }
    apply on_line_cells in Hon. rewrite <- Hperm in Hon.
    apply list_elem_of_fmap in Hon as (m & Hcell & Hm).
    apply list_elem_of_filter in Hm as [[Hp _] Hm].
    destruct m as [p c' r']. cbn in Hp, Hcell. by simplify_eq.
  - intros Hall.
    assert (Hsub : (λ cl, mkMove piece cl.2 cl.1) <$> line_cells l ⊆+ f).
    { apply NoDup_submseteq.
      - apply NoDup_fmap_2; [|apply NoDup_line_cells]. intros [] [] [=]. by simplify_eq.
      - intros m ([r c] & -> & Hcl)%list_elem_of_fmap. cbn [fst snd].
        assert (Hon : on_line l (mkMove piece c r)) by by apply on_line_cells.
        apply list_elem_of_filter. split; [done|]. by apply Hall. }
    apply submseteq_length in Hsub. rewrite length_fmap in Hsub.
    by destruct l as [[]|[]| |].
Qed.

(** ** The move log across the steps of [applyMove] *)

Lemma marked_objects_ne w mv r :
  r ≠ move mv → objects (marked w mv) r = objects w r.
Proof. intros Hr. unfold marked. cbn [objects]. by rewrite fn_lookup_insert_ne. Qed.

Lemma marked_objects_eq w mv :
  objects (marked w mv) (move mv) =
    mkMove (markOf (state (this w)) (playerID mv))
           (col (objects w (move mv))) (row (objects w (move mv))).
Proof. unfold marked. cbn [objects]. by rewrite fn_lookup_insert. Qed.

Lemma marked_cell w mv r : cell (objects (marked w mv) r) = cell (objects w r).
Proof.
  destruct (decide (r = move mv)) as [->|Hr].
  - by rewrite marked_objects_eq.
  - by rewrite marked_objects_ne.
Qed.

Lemma sameCell_cell w ref r :
  sameCell w ref r ↔ cell (objects w r) = cell (objects w ref).
Proof. unfold sameCell, cell. split; [by intros [-> ->]|by intros [= -> ->]]. Qed.

Lemma sameCell_marked w mv ref r : sameCell (marked w mv) ref r ↔ sameCell w ref r.
Proof. by rewrite !sameCell_cell, !marked_cell. Qed.

Lemma occupied_target w ref (refs : list MoveRef) :
  Exists (sameCell w ref) refs ↔ cell (objects w ref) ∈ cell <$> (objects w <$> refs).
Proof.
  rewrite Exists_exists, <- list_fmap_compose, list_elem_of_fmap.
  split.
  - intros (r & Hr & Hc). exists r. split; [|done]. symmetry. by apply sameCell_cell.
  - intros (r & Hc & Hr). exists r. split; [done|]. by apply sameCell_cell.
Qed.

Lemma occupied_marked w mv :
  Exists (sameCell (marked w mv) (move mv)) (moves (state (this w))) ↔
  target w mv ∈ cell <$> log w.
Proof.
  unfold target, log. rewrite <- occupied_target.
  apply Exists_proper; [|done]. intros r. apply sameCell_marked.
Qed.

(** A move object on a free cell is not one of the recorded objects. *)
Lemma free_not_recorded w mv :
  target w mv ∉ cell <$> log w → move mv ∉ moves (state (this w)).
Proof.
  intros Hfree Hin. apply Hfree. unfold target, log.
  rewrite <- list_fmap_compose. apply list_elem_of_fmap. by exists (move mv).
Qed.

Lemma log_marked w mv :
  move mv ∉ moves (state (this w)) → log (marked w mv) = log w.
Proof.
  intros Hnin. unfold log. cbn [marked this].
  apply list_fmap_ext. intros i r Hr.
  apply marked_objects_ne. intros ->. apply Hnin. by eapply list_elem_of_lookup_2.
Qed.

Lemma log_marked_cells w mv : cell <$> log (marked w mv) = cell <$> log w.
Proof.
  unfold log. cbn [marked this]. rewrite <- !list_fmap_compose.
  apply list_fmap_ext. intros i r _. apply marked_cell.
Qed.

Lemma log_appended w mv : log (appended w mv) = log w ++ [objects w (move mv)].
Proof. unfold log, appended. cbn [objects this state moves set_moves]. by rewrite fmap_app. Qed.

Lemma log_settled w mv : log (settled w mv) = log w.
Proof. unfold settled. by repeat case_match. Qed.

Lemma objects_settled w mv : objects (settled w mv) = objects w.
Proof. unfold settled. by repeat case_match. Qed.

Lemma length_log w : length (log w) = length (moves (state (this w))).
Proof. unfold log. by rewrite length_fmap. Qed.

Lemma last_log w : last (log w) = objects w <$> last (moves (state (this w))).
Proof. unfold log. by rewrite fmap_last. Qed.

(** ** The turn check *)

Lemma turn_check (piece : GamePiece) (ms : list TicTacToeMove) :
  (length ms = 0 ∧ piece = PieceO) ∨ (0 < length ms ∧ Some piece = gamePiece <$> last ms)
  ↔ piece ≠ turn ms.
Proof.
  unfold turn. destruct ms as [|m ms _] using rev_ind.
  - simpl. destruct piece; intuition (congruence || lia).
  - rewrite last_snoc, length_app. simpl.
    destruct piece, (gamePiece m); simpl; intuition (congruence || lia).
Qed.

(** The checks of [_moveIsValid], run on the world in which the mark is
    written, decide what [validation] says of the world before the call. *)
Lemma checked_marked w mv :
  checked (marked w mv) (move mv) =
    match validation w mv with
    | Some message => Throw (InvalidParametersError message)
    | None => Return true
    end.
Proof.
  unfold checked, validation. cbn zeta.
  change (state (this (marked w mv))) with (state (this w)).
  destruct (decide (status (state (this w)) ≠ IN_PROGRESS)) as [Hs|Hs]; [done|].
  destruct (decide (target w mv ∈ cell <$> log w)) as [Ho|Ho].
  { rewrite decide_True; [done|]. by apply occupied_marked. }
  rewrite decide_False by (by rewrite occupied_marked).
  pose proof (free_not_recorded _ _ Ho) as Hnin.
  pose proof (turn_check (markOf (state (this w)) (playerID mv)) (log w)) as Ht.
  rewrite last_log, length_log in Ht.
  assert (Hl : objects (marked w mv) <$> last (moves (state (this w)))
               = objects w <$> last (moves (state (this w)))).
  { destruct (last (moves (state (this w)))) as [r|] eqn:Hr; [|done].
    simpl. f_equal. apply marked_objects_ne. intros ->.
    apply Hnin. apply last_Some in Hr as [l' ->].
    apply elem_of_app. right. by apply list_elem_of_singleton. }
  rewrite Hl, marked_objects_eq. cbn [gamePiece].
  destruct (decide (markOf (state (this w)) (playerID mv) ≠ turn (log w))) as [Hturn|Hturn].
  - apply Ht in Hturn as [H1|H2].
    + by rewrite decide_True.
    + destruct (decide (length _ = 0 ∧ _)); [done|]. by rewrite decide_True.
  - rewrite !decide_False; [done|..]; intros H; apply Hturn, Ht; tauto.
Qed.

(** ** Accepted moves *)

Lemma applyMove_Return w mv :
  completion (applyMove mv w) = Return tt ↔ validation w mv = None.
Proof.
  unfold completion. rewrite applyMove_run, checked_marked.
  by destruct (validation w mv).
Qed.

Lemma validation_None w mv :
  validation w mv = None ↔
    statusOf w = IN_PROGRESS ∧ (target w mv ∉ cell <$> log w) ∧
    markOf (state (this w)) (playerID mv) = turn (log w).
Proof.
  unfold validation, statusOf. repeat case_decide; split; try done; tauto.
Qed.

Lemma applyMove_after_accepted w mv :
  validation w mv = None →
  after (applyMove mv w) = settled (appended (marked w mv) mv) mv.
Proof.
  intros Hv. unfold after. by rewrite applyMove_run, checked_marked, Hv.
Qed.

Lemma log_after_accepted w mv :
  validation w mv = None →
  log (after (applyMove mv w)) =
    log w ++ [mkMove (markOf (state (this w)) (playerID mv))
                     (col (objects w (move mv))) (row (objects w (move mv)))].
Proof.
  intros Hv. rewrite (applyMove_after_accepted _ _ Hv).
  apply validation_None in Hv as (_ & Hfree & _).
  rewrite log_settled, log_appended, log_marked by (by apply free_not_recorded).
  by rewrite marked_objects_eq.
Qed.

(** What an accepted move does to the log, the status and the winner. *)
Lemma accepted_move_settles w mv :
  validation w mv = None →
  let w' := after (applyMove mv w) in
  let piece := markOf (state (this w)) (playerID mv) in
  log w' = log w ++ [mkMove piece (col (objects w (move mv))) (row (objects w (move mv)))] ∧
  (has_line piece (log w') →
     statusOf w' = OVER ∧ winnerOf w' = Some (playerID mv)) ∧
  (¬ has_line piece (log w') → length (log w') = 9 →
     statusOf w' = OVER ∧ winnerOf w' = None) ∧
  (¬ has_line piece (log w') → length (log w') ≠ 9 →
     statusOf w' = statusOf w ∧ winnerOf w' = winnerOf w).
Proof.
  intros Hv. cbn zeta.
  split; [by apply log_after_accepted|].
  rewrite (applyMove_after_accepted _ _ Hv).
  set (w2 := appended (marked w mv) mv).
  assert (Hpiece : gamePiece (objects w2 (move mv)) = markOf (state (this w)) (playerID mv)).
  { unfold w2, appended. cbn [objects]. by rewrite marked_objects_eq. }
  pose proof (_playerHasWon_has_line mv w2) as Hwon. rewrite Hpiece in Hwon.
  rewrite log_settled. rewrite length_log.
  unfold settled, statusOf, winnerOf.
  destruct (_playerHasWon mv w2) eqn:Hw.
  - assert (has_line (markOf (state (this w)) (playerID mv)) (log w2)) by by apply Hwon.
    done.
  - assert (¬ has_line (markOf (state (this w)) (playerID mv)) (log w2)).
    { intros H%Hwon. congruence. }
    case_decide; done.
Qed.

(** C1. As it is stated the claim fails on the code: the winner is not
    always unset after an accepted move that ends nothing.  Alice plays
    her first move, bob leaves, which ends the game with alice as winner,
    and carol joins, which sets the status to IN_PROGRESS again; neither
    [_leave] nor [_join] clears the winner.  Carol's move is accepted, gives
    her no line and does not fill the board: the status stays IN_PROGRESS
    and the winner is still alice. *)
Lemma accepted_move_keeps_set_winner : ¬ accepted_move_settles_as_claimed.
Proof.
  intros H.
  destruct (H (run [ApplyMove (mkGameMove "p1" "g" 0); Leave bob; Join carol] started)
              (mkGameMove "p3" "g" 4)) as (_ & _ & _ & Hgo).
  - unfold started, newWorld, run. cbn [foldl].
    repeat apply reachable_call. apply reachable_new.
  - vm_compute. reflexivity.
  - destruct Hgo as [_ Hw].
    + intros [l Hl]. revert Hl. unfold holds_three.
      destruct l as [[]|[]| |]; vm_compute; lia.
    + vm_compute. lia.
    + vm_compute in Hw. discriminate.
Qed.

(** C1, amended. For every move that [applyMove] accepts, the move,
    carrying the mover's mark, is appended to the move log, and termination
    is evaluated on the new log: if a row, a column or a diagonal holds
    three moves of the mover's mark, the status becomes OVER and the winner
    the mover's id; otherwise, if the log has nine moves, the status
    becomes OVER and the winner is unset; otherwise the status stays
    IN_PROGRESS and the winner stays what it was before the move.  So no
    win is declared by a move after which no line holds three of the
    mover's marks. *)
Theorem applyMove_accepted w mv :
  completion (applyMove mv w) = Return tt →
  let w' := after (applyMove mv w) in
  let piece := markOf (state (this w)) (playerID mv) in
  log w' = log w ++ [mkMove piece (col (objects w (move mv))) (row (objects w (move mv)))] ∧
  (has_line piece (log w') →
     statusOf w' = OVER ∧ winnerOf w' = Some (playerID mv)) ∧
  (¬ has_line piece (log w') → length (log w') = 9 →
     statusOf w' = OVER ∧ winnerOf w' = None) ∧
  (¬ has_line piece (log w') → length (log w') ≠ 9 →
     statusOf w' = IN_PROGRESS ∧ winnerOf w' = winnerOf w).
Proof.
  intros Hv%applyMove_Return. cbn zeta.
  pose proof Hv as (Hs & _)%validation_None.
  destruct (accepted_move_settles w mv Hv) as (Hlog & Hwin & Htie & Hgo).
  split; [exact Hlog|]. split; [exact Hwin|]. split; [exact Htie|].
  intros Hno Hlen. rewrite <- Hs. by apply Hgo.
Qed.

Lemma applyMove_accepted_witness :
  let w := run [Join (Player.mk "p1" "alice"); Join (Player.mk "p2" "bob")]
               (mkWorld (λ _, mkMove PieceO G1 G1) (new "g")) in
  let mv := mkGameMove "p1" "g" 0 in
  log (after (applyMove mv w)) = [mkMove PieceX G1 G1] ∧
  statusOf (after (applyMove mv w)) = IN_PROGRESS.
Proof.
  cbn zeta.
  edestruct (applyMove_accepted
               (run [Join (Player.mk "p1" "alice"); Join (Player.mk "p2" "bob")]
                    (mkWorld (λ _, mkMove PieceO G1 G1) (new "g")))
               (mkGameMove "p1" "g" 0)) as (Hlog & _ & _ & Hgo).
  - vm_compute. reflexivity.
  - split; [exact Hlog|]. apply Hgo.
    + rewrite Hlog. intros [l Hl]. revert Hl. unfold holds_three.
      destruct l as [[]|[]| |]; vm_compute; lia.
    + rewrite Hlog. vm_compute. lia.
Defined.

(** The completion of [applyMove] is the first failing check. *)
Lemma applyMove_completion w mv :
  completion (applyMove mv w) =
    match validation w mv with
    | Some message => Throw (InvalidParametersError message)
    | None => Return tt
    end.
Proof.
  unfold completion. rewrite applyMove_run, checked_marked.
  by destruct (validation w mv).
Qed.

(** C2. [applyMove] runs its checks in a fixed order and throws the first
    failure: GAME_NOT_IN_PROGRESS_MESSAGE when the status is not
    IN_PROGRESS, whatever the move is; otherwise
    BOARD_POSITION_NOT_EMPTY_MESSAGE when the target cell already appears in
    the move log, also when the move is out of turn; otherwise
    MOVE_NOT_YOUR_TURN_MESSAGE when the mark deduced for the mover is not
    the mark whose turn it is (X on an empty log, otherwise the mark
    opposite to the last recorded move); otherwise the move is accepted. *)
Theorem applyMove_validates_in_order w mv :
  completion (applyMove mv w) =
    match validation w mv with
    | Some message => Throw (InvalidParametersError message)
    | None => Return tt
    end.
Proof.
  destruct (validation w mv) as [message|] eqn:Hv.
  - by rewrite applyMove_completion, Hv.
  - by apply applyMove_Return.
Qed.

(** ** [join] and [leave], case by case *)

Lemma _join_run player w :
  _join player w =
    if decide (player ∈ _players (this w)) then
      (w, Throw (InvalidParametersError PLAYER_ALREADY_IN_GAME_MESSAGE))
    else if decide (length (_players (this w)) = 2) then
      (w, Throw (InvalidParametersError GAME_FULL_MESSAGE))
    else if decide (length (_players (this w)) = 0) then
      (withState (set_x (Some (Player.id player))) w, Return tt)
    else if decide (length (_players (this w)) = 1) then
      (withState (set_status IN_PROGRESS) (withState (set_o (Some (Player.id player))) w),
       Return tt)
    else (w, Return tt).
Proof.
  eff_unfold. rewrite !bool_decide_decide.
  repeat (destruct (decide _); try done; try lia).
Qed.

Lemma join_run player w :
  join player w =
    match _join player w with
    | (w', Return _) =>
        (mkWorld (objects w')
           (mkGame (id (this w')) (state (this w')) (_players (this w') ++ [player])),
         Return tt)
    | (w', Throw e) => (w', Throw e)
    end.
Proof. unfold join, bind, assignPlayers, modify. by destruct (_join player w) as [? []]. Qed.

Lemma _leave_run player w :
  _leave player w =
    if decide (player ∉ _players (this w)) then
      (w, Throw (InvalidParametersError PLAYER_NOT_IN_GAME_MESSAGE))
    else if decide (status (state (this w)) = IN_PROGRESS) then
      match _players (this w) with
      | [] => (withState (set_status OVER) w, Throw TypeError)
      | p0 :: rest =>
          if decide (Player.id p0 = Player.id player) then
            match rest with
            | p1 :: _ =>
                (withState (set_winner (Some (Player.id p1))) (withState (set_status OVER) w),
                 Return tt)
            | [] => (withState (set_status OVER) w, Throw TypeError)
            end
          else
            (withState (set_winner (Some (Player.id p0))) (withState (set_status OVER) w),
             Return tt)
      end
    else (withState (set_status WAITING_TO_START) w, Return tt).
Proof.
  destruct w as [objs [gid st players]]. eff_unfold. unfold withState. simpl.
  rewrite bool_decide_decide. destruct (decide (player ∉ players)); [done|].
  destruct (decide (status st = IN_PROGRESS)) as [Hs|Hs].
  - rewrite (bool_decide_eq_true_2 _ Hs).
    destruct players as [|p0 [|p1 rest]]; simpl; try done.
    all: case_bool_decide; by case_decide.
  - by rewrite (bool_decide_eq_false_2 _ Hs).
Qed.

Lemma leave_run player w :
  leave player w =
    match _leave player w with
    | (w', Return _) =>
        (mkWorld (objects w')
           (mkGame (id (this w')) (state (this w'))
                   (filter (λ p, Player.id p ≠ Player.id player) (_players (this w')))),
         Return tt)
    | (w', Throw e) => (w', Throw e)
    end.
Proof. unfold leave, bind, assignPlayers, modify. by destruct (_leave player w) as [? []]. Qed.

(** ** The move log is written by accepted moves only *)

Lemma join_log player w : log (after (join player w)) = log w.
Proof.
  unfold after. rewrite join_run, _join_run. by repeat case_decide.
Qed.

Lemma leave_log player w : log (after (leave player w)) = log w.
Proof.
  unfold after. rewrite leave_run, _leave_run.
  repeat case_decide; try done.
  all: destruct (_players (this w)) as [|p0 [|p1 rest]]; try done.
  all: by repeat case_decide.
Qed.

Lemma applyMove_after_rejected w mv message :
  validation w mv = Some message → after (applyMove mv w) = marked w mv.
Proof.
  intros Hv. unfold after. by rewrite applyMove_run, checked_marked, Hv.
Qed.

Lemma call_log_cells c w :
  cell <$> log (after (call c w)) = cell <$> log w ∨
  ∃ m, (cell m ∉ cell <$> log w) ∧
       cell <$> log (after (call c w)) = (cell <$> log w) ++ [cell m].
Proof.
  destruct c as [player|player|mv]; cbn [call].
  - left. by rewrite join_log.
  - left. by rewrite leave_log.
  - destruct (validation w mv) as [message|] eqn:Hv.
    + left. rewrite (applyMove_after_rejected _ _ _ Hv). apply log_marked_cells.
    + right. rewrite (log_after_accepted _ _ Hv).
      apply validation_None in Hv as (_ & Hfree & _).
      eexists. split; [|by rewrite fmap_app]. exact Hfree.
Qed.

Lemma NoDup_cells_length (cells : list (TicTacToeGridPosition * TicTacToeGridPosition)) :
  NoDup cells → length cells ≤ 9.
Proof.
  intros Hnd. change 9 with (length all_cells).
  apply submseteq_length, NoDup_submseteq; [done|].
  intros [[] []] _; unfold all_cells;
    repeat (first [apply list_elem_of_here|apply list_elem_of_further]).
Qed.

Lemma reachable_NoDup_cells w : reachable w → NoDup (cell <$> log w).
Proof.
  induction 1 as [objs gid|w c _ IH].
  - apply NoDup_nil_2.
  - destruct (call_log_cells c w) as [->|(m & Hfree & ->)]; [done|].
    apply NoDup_app. repeat split; [done| |apply NoDup_singleton].
    intros cl Hcl ->%list_elem_of_singleton. done.
Qed.

(** C3. In every world reachable from a newly constructed game by [join],
    [leave] and [applyMove] calls, whether they return or throw, the move
    log has at most nine moves and no two recorded moves lie on the same
    (row, column) cell. *)
Theorem reachable_log_bounded w :
  reachable w → length (log w) ≤ 9 ∧ NoDup (cell <$> log w).
Proof.
  intros Hr. pose proof (reachable_NoDup_cells w Hr) as Hnd.
  split; [|done]. rewrite <- (length_fmap cell). by apply NoDup_cells_length.
Qed.

(** ** Reachable worlds *)

Lemma reachable_run cs w : reachable w → reachable (run cs w).
Proof.
  revert w. induction cs as [|c cs IH]; intros w Hw; [done|].
  apply IH. by apply reachable_call.
Qed.

Lemma reachable_log_bounded_witness :
  length (log (run [ApplyMove (mkGameMove "p1" "g" 0);
                    ApplyMove (mkGameMove "p2" "g" 4)] started)) ≤ 9
  ∧ NoDup (cell <$> log (run [ApplyMove (mkGameMove "p1" "g" 0);
                              ApplyMove (mkGameMove "p2" "g" 4)] started)).
Proof.
  apply (reachable_log_bounded
           (run [ApplyMove (mkGameMove "p1" "g" 0);
                 ApplyMove (mkGameMove "p2" "g" 4)] started)).
  unfold started. do 2 apply reachable_run. apply reachable_new.
Defined.

(** In a reachable world a line holds three moves of a mark exactly when
    its three cells are occupied by that mark. *)
Lemma reachable_has_line_complete w piece :
  reachable w → has_line piece (log w) ↔ ∃ l, line_complete l piece (log w).
Proof.
  intros Hnd%reachable_NoDup_cells. unfold has_line.
  split; intros [l Hl]; exists l; by apply (holds_three_complete l piece _ Hnd).
Qed.

Lemma status_after_rejected w mv message :
  validation w mv = Some message → this (after (applyMove mv w)) = this w.
Proof. intros Hv. by rewrite (applyMove_after_rejected _ _ _ Hv). Qed.

Lemma players_after_applyMove w mv : playersOf (after (applyMove mv w)) = playersOf w.
Proof.
  destruct (validation w mv) as [message|] eqn:Hv.
  - unfold playersOf. by rewrite (status_after_rejected _ _ _ Hv).
  - rewrite (applyMove_after_accepted _ _ Hv). unfold playersOf, settled.
    by repeat case_match.
Qed.

Lemma status_after_applyMove w mv :
  statusOf (after (applyMove mv w)) = statusOf w ∨ statusOf (after (applyMove mv w)) = OVER.
Proof.
  destruct (validation w mv) as [message|] eqn:Hv.
  - left. unfold statusOf. by rewrite (status_after_rejected _ _ _ Hv).
  - rewrite (applyMove_after_accepted _ _ Hv). unfold statusOf, settled.
    repeat case_match; auto.
Qed.

(** A game in progress has exactly two players. *)
Lemma reachable_in_progress w :
  reachable w → statusOf w = IN_PROGRESS → length (playersOf w) = 2.
Proof.
  induction 1 as [objs gid|w c _ IH]; [done|].
  destruct c as [player|player|mv]; cbn [call].
  - unfold after, statusOf, playersOf in *. rewrite join_run, _join_run.
    repeat case_decide; simpl; rewrite ?length_app; simpl; try done; try lia.
    + intros Hs. specialize (IH Hs). lia.
    + intros Hs. specialize (IH Hs). lia.
  - unfold after, statusOf, playersOf in *. rewrite leave_run, _leave_run.
    repeat case_decide; simpl; try done.
    destruct (_players (this w)) as [|p0 [|p1 rest]]; simpl; try done.
    all: by repeat case_decide.
  - rewrite players_after_applyMove.
    destruct (status_after_applyMove w mv) as [->| ->]; [done|done].
Qed.

(** The winner is written only together with the status OVER. *)
Lemma winner_written_with_over c w :
  statusOf (after (call c w)) ≠ OVER → winnerOf (after (call c w)) = winnerOf w.
Proof.
  destruct c as [player|player|mv]; cbn [call].
  - intros _. unfold after, winnerOf. rewrite join_run, _join_run.
    by repeat case_decide.
  - unfold after, statusOf, winnerOf. rewrite leave_run, _leave_run.
    repeat case_decide; try done.
    all: destruct (_players (this w)) as [|p0 [|p1 rest]]; try done.
    all: by repeat case_decide.
  - destruct (validation w mv) as [message|] eqn:Hv.
    + intros _. unfold winnerOf. by rewrite (status_after_rejected _ _ _ Hv).
    + rewrite (applyMove_after_accepted _ _ Hv). unfold statusOf, winnerOf, settled.
      by repeat case_match.
Qed.

(** As long as a game has not been OVER, its winner is unset. *)
Lemma winner_unset_before_over cs objs gid :
  Forall (λ w, statusOf w ≠ OVER) (visited cs (mkWorld objs (new gid))) →
  winnerOf (run cs (mkWorld objs (new gid))) = None.
Proof.
  assert (Hgen : ∀ w, winnerOf w = None →
            Forall (λ w, statusOf w ≠ OVER) (visited cs w) → winnerOf (run cs w) = None).
  { induction cs as [|c cs IH]; intros w Hw Hall; [done|].
    cbn [visited] in Hall. apply Forall_cons in Hall as [_ Hall].
    cbn [run foldl]. apply IH; [|done].
    rewrite winner_written_with_over; [done|].
    destruct cs; cbn [visited] in Hall; by apply Forall_cons in Hall as [? _]. }
  by apply Hgen.
Qed.

(** ** Failing calls *)

(** A call that throws a validation failure leaves the game object as it
    was; only [applyMove] writes to the store, and only the mark of the
    move object it was handed. *)
Lemma failure_leaves_game_unchanged c w message :
  completion (call c w) = Throw (InvalidParametersError message) →
  this (after (call c w)) = this w ∧
  (∀ r, (∀ mv, c = ApplyMove mv → r ≠ move mv) →
        objects (after (call c w)) r = objects w r) ∧
  cell <$> log (after (call c w)) = cell <$> log w.
Proof.
  destruct c as [player|player|mv]; cbn [call].
  - unfold completion, after, log. rewrite join_run, _join_run.
    repeat case_decide; simpl; done.
  - unfold completion, after, log. rewrite leave_run, _leave_run.
    repeat case_decide; simpl; try done.
    destruct (_players (this w)) as [|p0 [|p1 rest]]; simpl; try done.
    all: by repeat case_decide.
  - rewrite applyMove_completion.
    destruct (validation w mv) as [m|] eqn:Hv; [|done]. intros _.
    rewrite (applyMove_after_rejected _ _ _ Hv). split; [done|]. split.
    + intros r Hr. apply marked_objects_ne. by apply Hr.
    + apply log_marked_cells.
Qed.

(** When the rejected move object is not one of the recorded ones, the
    move log is left as it was too. *)
Lemma failure_leaves_log_unchanged c w message :
  completion (call c w) = Throw (InvalidParametersError message) →
  (∀ mv, c = ApplyMove mv → move mv ∉ moves (state (this w))) →
  log (after (call c w)) = log w.
Proof.
  intros Hthrow Hfresh. destruct c as [player|player|mv]; cbn [call] in *.
  - apply join_log.
  - apply leave_log.
  - rewrite applyMove_completion in Hthrow.
    destruct (validation w mv) as [m|] eqn:Hv; [|done].
    rewrite (applyMove_after_rejected _ _ _ Hv). apply log_marked. by apply Hfresh.
Qed.

(** C5. On the code the claim fails: a move rejected with
    BOARD_POSITION_NOT_EMPTY_MESSAGE changes the move log when the move
    object handed to [applyMove] is the one recorded for that cell.  Here
    the first player has moved with move object 0 and the second player
    submits the same object: the call throws, and the recorded move, an X
    before the call, is an O after it, so that it is X's turn again. *)
Theorem rejected_move_rewrites_recorded_mark :
  let w := run [ApplyMove (mkGameMove "p1" "g" 0)] started in
  let mv := mkGameMove "p2" "g" 0 in
  log w = [mkMove PieceX G0 G0] ∧
  turn (log w) = PieceO ∧
  completion (applyMove mv w) = Throw (InvalidParametersError BOARD_POSITION_NOT_EMPTY_MESSAGE) ∧
  log (after (applyMove mv w)) = [mkMove PieceO G0 G0] ∧
  turn (log (after (applyMove mv w))) = PieceX.
Proof. vm_compute. done. Qed.

Lemma failure_changes_state : ¬ failure_leaves_state_unchanged.
Proof.
  intros H.
  destruct (H (run [ApplyMove (mkGameMove "p1" "g" 0)] started)
              (ApplyMove (mkGameMove "p2" "g" 0))
              BOARD_POSITION_NOT_EMPTY_MESSAGE) as [Hlog _].
  - vm_compute. done.
  - vm_compute in Hlog. discriminate.
Qed.

(** ** OVER is not terminal *)

Lemma over_is_not_terminal : ¬ over_is_terminal.
Proof.
  intros H.
  specialize (H (run [Leave alice] started) (Leave bob)).
  assert (Hr : reachable (run [Leave alice] started)).
  { unfold started. do 2 apply reachable_run. apply reachable_new. }
  specialize (H Hr). vm_compute in H. specialize (H eq_refl). discriminate.
Qed.

(** C4, amended. Once the status is OVER, [applyMove] always fails with
    GAME_NOT_IN_PROGRESS_MESSAGE and leaves the status OVER, and a [join] or
    [leave] that throws leaves it OVER; but OVER is not terminal: the leave
    of the only remaining participant resets the status to
    WAITING_TO_START, and the join of a second participant sets it to
    IN_PROGRESS. *)
Theorem over_left_only_by_join_or_leave w :
  statusOf w = OVER →
  (∀ mv, completion (applyMove mv w) =
           Throw (InvalidParametersError GAME_NOT_IN_PROGRESS_MESSAGE) ∧
         statusOf (after (applyMove mv w)) = OVER) ∧
  (∀ c e, completion (call c w) = Throw e → statusOf (after (call c w)) = OVER) ∧
  (∀ player, playersOf w = [player] →
     completion (leave player w) = Return tt ∧
     statusOf (after (leave player w)) = WAITING_TO_START) ∧
  (∀ player other, playersOf w = [other] → player ≠ other →
     completion (join player w) = Return tt ∧
     statusOf (after (join player w)) = IN_PROGRESS).
Proof.
  intros Hover.
  assert (Hmove : ∀ mv, validation w mv = Some GAME_NOT_IN_PROGRESS_MESSAGE).
  { intros mv. unfold validation. unfold statusOf in Hover.
    rewrite decide_True; [done|congruence]. }
  repeat split.
  - rewrite applyMove_completion. by rewrite Hmove.
  - unfold statusOf. by rewrite (status_after_rejected _ _ _ (Hmove mv)).
  - intros c e. destruct c as [player|player|mv]; cbn [call].
    + unfold completion, after, statusOf in *. rewrite join_run, _join_run.
      repeat case_decide; simpl; done.
    + unfold completion, after, statusOf in *. rewrite leave_run, _leave_run.
      repeat case_decide; simpl; try done. congruence.
    + intros _. unfold statusOf. by rewrite (status_after_rejected _ _ _ (Hmove mv)).
  - unfold completion, playersOf, statusOf in *. rewrite leave_run, _leave_run.
    rewrite decide_False by (rewrite H; intros Hn; apply Hn, list_elem_of_here).
    rewrite decide_False by congruence. done.
  - unfold after, playersOf, statusOf in *. rewrite leave_run, _leave_run.
    rewrite decide_False by (rewrite H; intros Hn; apply Hn, list_elem_of_here).
    rewrite decide_False by congruence. done.
  - unfold completion, playersOf, statusOf in *. rewrite join_run, _join_run, H.
    rewrite decide_False by (by intros ?%list_elem_of_singleton).
    by repeat case_decide.
  - unfold after, playersOf, statusOf in *. rewrite join_run, _join_run, H.
    rewrite decide_False by (by intros ?%list_elem_of_singleton).
    by repeat case_decide.
Qed.

Lemma over_left_only_by_join_or_leave_witness :
  statusOf (run [Leave alice] started) = OVER ∧
  statusOf (after (leave bob (run [Leave alice] started))) = WAITING_TO_START ∧
  statusOf (after (join carol (run [Leave alice] started))) = IN_PROGRESS.
Proof.
  assert (Hover : statusOf (run [Leave alice] started) = OVER) by (vm_compute; reflexivity).
  destruct (over_left_only_by_join_or_leave (run [Leave alice] started) Hover)
    as (_ & _ & Hleave & Hjoin).
  split; [exact Hover|]. split.
  - apply Hleave. vm_compute. reflexivity.
  - apply (Hjoin carol bob); [vm_compute; reflexivity|discriminate].
Defined.

(** ** [leave] *)

(** C6. [leave] fails with PLAYER_NOT_IN_GAME_MESSAGE when the player is
    not a participant of the game.  When a participant leaves a game that
    is IN_PROGRESS, the status becomes OVER and the winner becomes the other
    participant, whatever the moves made (the log is not looked at and is
    left as it is); a reachable game that is IN_PROGRESS has exactly one
    other participant.  When a participant leaves a game whose status is
    not IN_PROGRESS, the status is reset to WAITING_TO_START. *)
Theorem leave_cases w player :
  (¬ participant w player →
     completion (leave player w) = Throw (InvalidParametersError PLAYER_NOT_IN_GAME_MESSAGE)) ∧
  (∀ other, playersOf w = [player; other] ∨ playersOf w = [other; player] →
     statusOf w = IN_PROGRESS →
       completion (leave player w) = Return tt ∧
       statusOf (after (leave player w)) = OVER ∧
       winnerOf (after (leave player w)) = Some (Player.id other) ∧
       log (after (leave player w)) = log w) ∧
  (reachable w → participant w player → statusOf w = IN_PROGRESS →
     ∃ other, playersOf w = [player; other] ∨ playersOf w = [other; player]) ∧
  (participant w player → statusOf w ≠ IN_PROGRESS →
     completion (leave player w) = Return tt ∧
     statusOf (after (leave player w)) = WAITING_TO_START).
Proof.
  unfold participant, statusOf, winnerOf, playersOf.
  split; [|split; [|split]].
  - intros Hnot. unfold completion. rewrite leave_run, _leave_run.
    by rewrite decide_True.
  - intros other Hplayers Hs.
    rewrite leave_log. unfold completion, after. rewrite leave_run, _leave_run.
    rewrite decide_False
      by (intros Hn; apply Hn; destruct Hplayers as [-> | ->];
          [apply list_elem_of_here|apply list_elem_of_further, list_elem_of_here]).
    rewrite decide_True by done.
    destruct Hplayers as [-> | ->].
    + by rewrite decide_True.
    + case_decide as Hid; simpl; [rewrite Hid|]; done.
  - intros Hr Hin Hs.
    pose proof (reachable_in_progress w Hr Hs) as Hlen. unfold playersOf in Hlen.
    destruct (_players (this w)) as [|p0 [|p1 [|p2 rest]]]; try done.
    apply elem_of_cons in Hin as [->|Hin].
    + exists p1. by left.
    + apply list_elem_of_singleton in Hin as ->. exists p0. by right.
  - intros Hin Hs. unfold completion, after. rewrite leave_run, _leave_run.
    rewrite decide_False by (intros Hn; by apply Hn).
    by rewrite decide_False.
Qed.

Lemma leave_cases_witness :
  completion (leave carol started) = Throw (InvalidParametersError PLAYER_NOT_IN_GAME_MESSAGE) ∧
  winnerOf (after (leave alice started)) = Some "p2" ∧
  (∃ other, playersOf started = [alice; other] ∨ playersOf started = [other; alice]) ∧
  statusOf (after (leave bob (run [Leave alice] started))) = WAITING_TO_START.
Proof.
  split; [|split; [|split]].
  - apply (leave_cases started carol). vm_compute. intros H.
    repeat (apply elem_of_cons in H as [H|H]; [discriminate H|]).
    by apply not_elem_of_nil in H.
  - destruct (leave_cases started alice) as (_ & Hforfeit & _).
    apply (Hforfeit bob); [left|]; vm_compute; reflexivity.
  - destruct (leave_cases started alice) as (_ & _ & Htwo & _).
    apply Htwo.
    + unfold started. apply reachable_run, reachable_new.
    + vm_compute. apply list_elem_of_here.
    + vm_compute. reflexivity.
  - apply (leave_cases (run [Leave alice] started) bob).
    + vm_compute. apply list_elem_of_here.
    + vm_compute. discriminate.
Defined.

(** ** [join] *)

Lemma seats_after_applyMove w mv :
  x (state (this (after (applyMove mv w)))) = x (state (this w)) ∧
  o (state (this (after (applyMove mv w)))) = o (state (this w)).
Proof.
  destruct (validation w mv) as [message|] eqn:Hv.
  - by rewrite (status_after_rejected _ _ _ Hv).
  - rewrite (applyMove_after_accepted _ _ Hv). unfold settled.
    by repeat case_match.
Qed.

Lemma seats_after_leave w player :
  x (state (this (after (leave player w)))) = x (state (this w)) ∧
  o (state (this (after (leave player w)))) = o (state (this w)).
Proof.
  unfold after. rewrite leave_run, _leave_run.
  repeat case_decide; try done.
  all: destruct (_players (this w)) as [|p0 [|p1 rest]]; try done.
  all: by repeat case_decide.
Qed.

Lemma assignment_is_not_permanent : ¬ assignment_is_permanent.
Proof.
  intros H.
  destruct (H (run [Join alice] newWorld) [Leave alice; Join bob] "p1") as [Hx _].
  - apply reachable_run, reachable_new.
  - specialize (Hx eq_refl). vm_compute in Hx. discriminate.
Qed.

(** C7, amended. The first participant to join a new game is assigned
    mark X and the status is WAITING_TO_START; in any game, a participant
    who joins when there is none is assigned X, and a participant who joins
    when there is one is assigned O and the status becomes IN_PROGRESS.  No
    move and no join or leave that throws changes these assignments; a
    later successful join, possible once a participant has left, overwrites
    the seat it takes.  [join] fails with PLAYER_ALREADY_IN_GAME_MESSAGE
    when the joining player is already a participant and with
    GAME_FULL_MESSAGE when the game has two participants.  What a leave
    that returns does to the assignments is not part of the statement. *)
Theorem join_cases w player :
  (∀ objs gid,
     let w1 := after (join player (mkWorld objs (new gid))) in
     completion (join player (mkWorld objs (new gid))) = Return tt ∧
     x (state (this w1)) = Some (Player.id player) ∧ o (state (this w1)) = None ∧
     statusOf w1 = WAITING_TO_START ∧ playersOf w1 = [player]) ∧
  (playersOf w = [] →
     completion (join player w) = Return tt ∧
     x (state (this (after (join player w)))) = Some (Player.id player) ∧
     o (state (this (after (join player w)))) = o (state (this w)) ∧
     statusOf (after (join player w)) = statusOf w ∧
     playersOf (after (join player w)) = [player]) ∧
  (∀ first, playersOf w = [first] → player ≠ first →
     completion (join player w) = Return tt ∧
     x (state (this (after (join player w)))) = x (state (this w)) ∧
     o (state (this (after (join player w)))) = Some (Player.id player) ∧
     statusOf (after (join player w)) = IN_PROGRESS ∧
     playersOf (after (join player w)) = [first; player]) ∧
  (participant w player →
     completion (join player w) =
       Throw (InvalidParametersError PLAYER_ALREADY_IN_GAME_MESSAGE)) ∧
  (¬ participant w player → length (playersOf w) = 2 →
     completion (join player w) = Throw (InvalidParametersError GAME_FULL_MESSAGE)) ∧
  (∀ c, (∀ p, c = Join p ∨ c = Leave p → completion (call c w) ≠ Return tt) →
     x (state (this (after (call c w)))) = x (state (this w)) ∧
     o (state (this (after (call c w)))) = o (state (this w))).
Proof.
  unfold participant, playersOf, statusOf.
  split; [|split; [|split; [|split; [|split]]]].
  - intros objs gid. cbn zeta. unfold completion, after. rewrite join_run, _join_run.
    cbn [new this _players]. rewrite decide_False by apply not_elem_of_nil.
    done.
  - intros Hp. unfold completion, after. rewrite join_run, _join_run, Hp.
    rewrite decide_False by apply not_elem_of_nil. simpl. by rewrite Hp.
  - intros first Hp Hne. unfold completion, after. rewrite join_run, _join_run, Hp.
    rewrite decide_False by (by intros ?%list_elem_of_singleton). simpl. by rewrite Hp.
  - intros Hin. unfold completion. rewrite join_run, _join_run. by rewrite decide_True.
  - intros Hnot Hlen. unfold completion. rewrite join_run, _join_run.
    rewrite decide_False by done. by rewrite decide_True.
  - intros c Hc. destruct c as [p|p|mv]; cbn [call] in *.
    + specialize (Hc p (or_introl eq_refl)). revert Hc. unfold completion, after.
      rewrite join_run, _join_run. by repeat case_decide.
    + apply seats_after_leave.
    + apply seats_after_applyMove.
Qed.

Lemma join_cases_witness :
  completion (join alice started) =
    Throw (InvalidParametersError PLAYER_ALREADY_IN_GAME_MESSAGE) ∧
  completion (join carol started) = Throw (InvalidParametersError GAME_FULL_MESSAGE) ∧
  o (state (this (after (join bob (run [Join alice] newWorld))))) = Some "p2".
Proof.
  split; [|split].
  - apply (join_cases started alice). vm_compute. apply list_elem_of_here.
  - apply (join_cases started carol); [|vm_compute; reflexivity].
    vm_compute. intros H.
    repeat (apply elem_of_cons in H as [H|H]; [discriminate H|]).
    by apply not_elem_of_nil in H.
  - destruct (join_cases (run [Join alice] newWorld) bob) as (_ & _ & Hsecond & _).
    destruct (Hsecond alice) as (_ & _ & Ho & _); [vm_compute; reflexivity|discriminate|].
    exact Ho.
Defined.

(** ** Moves by a player who is in neither seat *)

Lemma markOf_not_x s pid : x s ≠ Some pid → markOf s pid = PieceO.
Proof. intros Hx. unfold markOf. by rewrite decide_False. Qed.

Lemma piece_after_applyMove w mv :
  gamePiece (objects (after (applyMove mv w)) (move mv)) =
    markOf (state (this w)) (playerID mv).
Proof.
  destruct (validation w mv) as [message|] eqn:Hv.
  - by rewrite (applyMove_after_rejected _ _ _ Hv), marked_objects_eq.
  - rewrite (applyMove_after_accepted _ _ Hv), objects_settled.
    unfold appended. cbn [objects]. by rewrite marked_objects_eq.
Qed.

(** C10. [applyMove] does not check that the mover is a participant: every
    player id other than the one in seat [x] has the mark O written into
    its move object.  So when it is O's turn, a move on a free cell of a
    game in progress, submitted with a player id that is in neither seat,
    is accepted and appended as an O move; and if a line then holds three
    O moves, the status becomes OVER and the winner is that player id. *)
Theorem foreign_player_moves_as_O w mv :
  x (state (this w)) ≠ Some (playerID mv) →
  o (state (this w)) ≠ Some (playerID mv) →
  gamePiece (objects (after (applyMove mv w)) (move mv)) = PieceO ∧
  (statusOf w = IN_PROGRESS → target w mv ∉ cell <$> log w → turn (log w) = PieceO →
     let w' := after (applyMove mv w) in
     completion (applyMove mv w) = Return tt ∧
     log w' = log w ++ [mkMove PieceO (col (objects w (move mv))) (row (objects w (move mv)))] ∧
     (has_line PieceO (log w') →
        statusOf w' = OVER ∧ winnerOf w' = Some (playerID mv))).
Proof.
  intros Hx _. pose proof (markOf_not_x _ _ Hx) as Hmark.
  split; [by rewrite piece_after_applyMove|].
  intros Hs Hfree Hturn. cbn zeta.
  assert (Hv : validation w mv = None).
  { apply validation_None. rewrite Hmark, Hturn. done. }
  destruct (accepted_move_settles w mv Hv) as (Hlog & Hwin & _).
  rewrite Hmark in Hlog, Hwin. split; [by apply applyMove_Return|done].
Qed.

Lemma foreign_player_moves_as_O_witness :
  let w := run [ApplyMove (mkGameMove "p1" "g" 0); ApplyMove (mkGameMove "p2" "g" 3);
                ApplyMove (mkGameMove "p1" "g" 1); ApplyMove (mkGameMove "p3" "g" 4);
                ApplyMove (mkGameMove "p1" "g" 8)] started in
  let mv := mkGameMove "p3" "g" 5 in
  playersOf w = [alice; bob] ∧
  completion (applyMove mv w) = Return tt ∧
  statusOf (after (applyMove mv w)) = OVER ∧
  winnerOf (after (applyMove mv w)) = Some "p3".
Proof.
  cbn zeta.
  destruct (foreign_player_moves_as_O
              (run [ApplyMove (mkGameMove "p1" "g" 0); ApplyMove (mkGameMove "p2" "g" 3);
                    ApplyMove (mkGameMove "p1" "g" 1); ApplyMove (mkGameMove "p3" "g" 4);
                    ApplyMove (mkGameMove "p1" "g" 8)] started)
              (mkGameMove "p3" "g" 5)) as [_ Haccepted].
  - vm_compute. discriminate.
  - vm_compute. discriminate.
  - destruct Haccepted as (Hret & Hlog & Hwin).
    + vm_compute. reflexivity.
    + vm_compute. intros H.
      repeat (apply elem_of_cons in H as [H|H]; [discriminate H|]).
      by apply not_elem_of_nil in H.
    + vm_compute. reflexivity.
    + split; [vm_compute; reflexivity|]. split; [exact Hret|].
      apply Hwin. rewrite Hlog. exists (RowLine G1). vm_compute. lia.
Defined.

(** ** The command router *)

(** C9. The router fails a leave or a move command with
    GAME_NOT_IN_PROGRESS_MESSAGE when the area has no game, and with
    GAME_ID_MISSMATCH_MESSAGE when the game id of the command is not the id
    of the game of the area; a command of any other kind than join, leave
    and move fails with INVALID_COMMAND_MESSAGE; and whatever the engine
    throws on the call a handler makes is what the handler throws. *)
Theorem handleCommand_failures gid player w :
  (gameOf w = None →
     ∀ gameID move,
       completion (handleCommand gid (LeaveGame gameID) player w) =
         Throw (InvalidParametersError GAME_NOT_IN_PROGRESS_MESSAGE) ∧
       completion (handleCommand gid (GameMoveCommand gameID move) player w) =
         Throw (InvalidParametersError GAME_NOT_IN_PROGRESS_MESSAGE)) ∧
  (∀ g gameID move, gameOf w = Some g → gameID ≠ id g →
       completion (handleCommand gid (LeaveGame gameID) player w) =
         Throw (InvalidParametersError GAME_ID_MISSMATCH_MESSAGE) ∧
       completion (handleCommand gid (GameMoveCommand gameID move) player w) =
         Throw (InvalidParametersError GAME_ID_MISSMATCH_MESSAGE)) ∧
  (∀ type, completion (handleCommand gid (OtherCommand type) player w) =
             Throw (InvalidParametersError INVALID_COMMAND_MESSAGE)) ∧
  (∀ g e move, gameOf w = Some g →
     (completion (join player (engineWorld w g)) = Throw e →
        completion (handleCommand gid JoinGame player w) = Throw e) ∧
     (completion (leave player (engineWorld w g)) = Throw e →
        completion (handleCommand gid (LeaveGame (id g)) player w) = Throw e) ∧
     (completion (applyMove (mkGameMove (Player.id player) (id g) move) (engineWorld w g))
        = Throw e →
        completion (handleCommand gid (GameMoveCommand (id g) move) player w)
        = Throw e)).
Proof.
  destruct w as [objs [g0 hist occ n]]. cbn [TicTacToeGameArea._game TicTacToeGameArea.this].
  split; [|split; [|split]].
  - intros ->. intros gameID move. by area_unfold.
  - intros g gameID move -> Hne. area_unfold. simpl.
    rewrite bool_decide_eq_true_2 by done.
    by rewrite bool_decide_eq_true_2 by done.
  - done.
  - intros g e move ->. area_unfold. simpl. repeat split.
    + destruct (join player _) as [gw' [[]|e']]; simpl; [done|]. by intros [= ->].
    + rewrite bool_decide_eq_false_2 by (intros H; by apply H). simpl.
      destruct (leave player _) as [gw' [[]|e']]; simpl; [done|]. by intros [= ->].
    + rewrite bool_decide_eq_false_2 by (intros H; by apply H). simpl.
      destruct (applyMove _ _) as [gw' [[]|e']]; simpl; [done|]. by intros [= ->].
Qed.

Lemma handleCommand_failures_witness :
  completion (handleCommand "g" (LeaveGame "g") alice (areaWorld [alice; bob])) =
    Throw (InvalidParametersError GAME_NOT_IN_PROGRESS_MESSAGE) ∧
  completion (handleCommand "g" (GameMoveCommand "h" 0) alice
                (handle [(JoinGame, alice)] (areaWorld [alice; bob]))) =
    Throw (InvalidParametersError GAME_ID_MISSMATCH_MESSAGE) ∧
  completion (handleCommand "g" (GameMoveCommand "g" 0) alice
                (handle [(JoinGame, alice)] (areaWorld [alice; bob]))) =
    Throw (InvalidParametersError GAME_NOT_IN_PROGRESS_MESSAGE).
Proof.
  split; [|split].
  - destruct (handleCommand_failures "g" alice (areaWorld [alice; bob])) as (Hnone & _).
    apply (Hnone eq_refl "g" 0).
  - destruct (handleCommand_failures "g" alice
                (handle [(JoinGame, alice)] (areaWorld [alice; bob])))
      as (_ & Hid & _).
    apply (Hid (mkGame "g" (mkState [] WAITING_TO_START (Some "p1") None None) [alice]));
      [vm_compute; reflexivity|discriminate].
  - destruct (handleCommand_failures "g" alice
                (handle [(JoinGame, alice)] (areaWorld [alice; bob])))
      as (_ & _ & _ & Hengine).
    destruct (Hengine (mkGame "g" (mkState [] WAITING_TO_START (Some "p1") None None) [alice])
                (InvalidParametersError GAME_NOT_IN_PROGRESS_MESSAGE) 0)
      as (_ & _ & Hmove); [vm_compute; reflexivity|].
    apply Hmove. vm_compute. reflexivity.
Defined.

(** ** The ledger *)

(** A leave command that returns appends exactly one record when the
    status of the game is then OVER, and none otherwise. *)
Lemma handleLeave_history gid gameID player w ret :
  completion (handleCommand gid (LeaveGame gameID) player w) = Return ret →
  let w' := after (handleCommand gid (LeaveGame gameID) player w) in
  (statusIn w' = Some OVER → ∃ r, historyOf w' = historyOf w ++ [r]) ∧
  (statusIn w' ≠ Some OVER → historyOf w' = historyOf w).
Proof.
  cbn zeta. unfold statusIn. destruct w as [objs [g hist occ n]].
  area_unfold. simpl.
  destruct g as [g|]; [|done].
  case_bool_decide; [done|]. simpl.
  destruct (leave player _) as [gw' [[]|e]] eqn:Hl; simpl; [|done].
  case_bool_decide as Hs; simpl.
  - destruct occ as [|o0 [|o1 occ']]; simpl; try done.
    all: repeat (case_bool_decide; simpl); try done.
    all: intros _; rewrite Hs; split; [eauto|done].
  - intros _. split; [congruence|done].
Qed.

(** The same for a move command. *)
Lemma handleMove_history gid gameID move player w ret :
  completion (handleCommand gid (GameMoveCommand gameID move) player w) = Return ret →
  let w' := after (handleCommand gid (GameMoveCommand gameID move) player w) in
  (statusIn w' = Some OVER → ∃ r, historyOf w' = historyOf w ++ [r]) ∧
  (statusIn w' ≠ Some OVER → historyOf w' = historyOf w).
Proof.
  cbn zeta. unfold statusIn. destruct w as [objs [g hist occ n]].
  area_unfold. simpl.
  destruct g as [g|]; [|done].
  case_bool_decide; [done|]. simpl.
  destruct (applyMove _ _) as [gw' [[]|e]] eqn:Hl; simpl; [|done].
  case_bool_decide as Hs; simpl.
  - destruct occ as [|o0 [|o1 occ']]; simpl; try done.
    all: repeat (case_bool_decide; simpl); try done.
    all: intros _; rewrite Hs; split; [eauto|done].
  - intros _. split; [congruence|done].
Qed.

(** A join command never writes to the ledger. *)
Lemma handleJoin_history gid player w :
  historyOf (after (handleCommand gid JoinGame player w)) = historyOf w.
Proof.
  destruct w as [objs [g hist occ n]].
  area_unfold. simpl. destruct g as [g|]; simpl.
  - destruct (join player _) as [gw' [[]|e]]; simpl; done.
  - done.
Qed.

(** The record of a forfeit when the first two occupants of the area are
    the two participants, under different user names: the participant who
    stays scores 1 and the one who leaves scores 0. *)
Lemma handleLeave_participants gid g player other rest w :
  gameOf w = Some g →
  status (state g) = IN_PROGRESS →
  (_players g = [player; other] ∨ _players g = [other; player]) →
  (occupantsOf w = player :: other :: rest ∨
   occupantsOf w = other :: player :: rest) →
  Player.id player ≠ Player.id other →
  let w' := after (handleCommand gid (LeaveGame (id g)) player w) in
  statusIn w' = Some OVER ∧ winnerIn w' = Some (Some (Player.id other)) ∧
  historyOf w' =
    historyOf w ++ [GameResult.mk (id g)
                      (scoresOf (Player.userName other) 1 (Player.userName player) 0)].
Proof.
  cbn zeta. unfold statusIn, winnerIn.
  destruct w as [objs [g0 hist occ n]].
  cbn [TicTacToeGameArea._game TicTacToeGameArea._occupants TicTacToeGameArea.this].
  intros -> Hs Hplayers Hocc Hid.
  area_unfold. simpl.
  rewrite bool_decide_eq_false_2 by (intros H; by apply H). simpl.
  rewrite leave_run, _leave_run. cbn [this objects].
  rewrite decide_False
    by (intros Hn; apply Hn; destruct Hplayers as [-> | ->];
        [apply list_elem_of_here|apply list_elem_of_further, list_elem_of_here]).
  rewrite decide_True by done.
  destruct Hplayers as [-> | ->], Hocc as [-> | ->]; simpl.
  all: repeat (case_decide; simpl; try done; try congruence).
  all: repeat (case_bool_decide; simpl; try done; try congruence).
Qed.

(** The record of a move that ends the game when the first two occupants
    of the area are the mover and the other participant, under different
    user names: on a win the mover scores 1 and the other 0, on a tie both
    score 0. *)
Lemma handleMove_participants gid g player other rest move w :
  gameOf w = Some g →
  (occupantsOf w = player :: other :: rest ∨
   occupantsOf w = other :: player :: rest) →
  Player.userName player ≠ Player.userName other →
  let mv := mkGameMove (Player.id player) (id g) move in
  let w' := after (handleCommand gid
                     (GameMoveCommand (id g) move) player w) in
  completion (applyMove mv (engineWorld w g)) = Return tt →
  statusOf (after (applyMove mv (engineWorld w g))) = OVER →
  historyOf w' =
    historyOf w ++
      [GameResult.mk (id g)
         (match winnerOf (after (applyMove mv (engineWorld w g))) with
          | Some _ =>
              scoresOf (Player.userName player) 1 (Player.userName other) 0
          | None =>
              scoresOf (Player.userName player) 0 (Player.userName other) 0
          end)].
Proof.
  cbn zeta. unfold statusOf, winnerOf.
  destruct w as [objs [g0 hist occ n]].
  cbn [TicTacToeGameArea._game TicTacToeGameArea._occupants TicTacToeGameArea.this].
  intros -> Hocc Hname.
  area_unfold. simpl.
  rewrite bool_decide_eq_false_2 by (intros H; by apply H). simpl.
  destruct (applyMove _ _) as [gw' [[]|e]]; simpl; [|done].
  intros _ Hs. rewrite (bool_decide_eq_true_2 _ Hs). simpl.
  destruct (winner (state (this gw'))) as [pid|]; simpl.
  - destruct Hocc as [-> | ->]; simpl.
    + rewrite bool_decide_eq_false_2 by (intros H; by apply H). done.
    + rewrite bool_decide_eq_true_2 by done. done.
  - destruct Hocc as [-> | ->]; simpl; [done|].
    unfold TicTacToeGameArea.scoresOf. by rewrite insert_insert_ne.
Qed.

(** C8. On the code the claim fails: the handlers take the two names to
    score from the first two occupants of the area, which need not be the
    two participants.  With a spectator standing first in the area, the
    forfeit of a game between the two others appends a record that scores
    the participant who left 1 and the spectator 0, and does not score the
    winner; without the spectator the record scores the winner 1 and the
    participant who left 0. *)
Theorem forfeit_record_with_spectator :
  let joins := [(JoinGame, alice); (JoinGame, bob)] in
  let crowded := handleCommand "g" (LeaveGame "g") alice
                   (handle joins (areaWorld [dave; alice; bob])) in
  let alone := handleCommand "g" (LeaveGame "g") alice
                 (handle joins (areaWorld [alice; bob])) in
  completion crowded = Return Undefined ∧
  statusIn (after crowded) = Some OVER ∧
  winnerIn (after crowded) = Some (Some "p2") ∧
  historyOf (after crowded) = [GameResult.mk "g" (scoresOf "alice" 1 "dave" 0)] ∧
  historyOf (after alone) = [GameResult.mk "g" (scoresOf "bob" 1 "alice" 0)].
Proof. vm_compute. done. Qed.

(** * Further properties of the engine *)

(** X1. In every reachable world the win detection is exact: the three
    scans of [_playerHasWon], which count moves, answer true exactly when
    all three cells of some row, column or diagonal carry the mark of the
    move object at hand. *)
Theorem playerHasWon_exact w mv :
  reachable w →
  _playerHasWon mv w = true ↔
    ∃ l, line_complete l (gamePiece (objects w (move mv))) (log w).
Proof.
  intros Hr. rewrite _playerHasWon_has_line.
  by apply reachable_has_line_complete.
Qed.

Lemma playerHasWon_exact_witness :
  let w := run [ApplyMove (mkGameMove "p1" "g" 0); ApplyMove (mkGameMove "p2" "g" 3);
                ApplyMove (mkGameMove "p1" "g" 1); ApplyMove (mkGameMove "p2" "g" 4);
                ApplyMove (mkGameMove "p1" "g" 2)] started in
  ∃ l, line_complete l PieceX (log w).
Proof.
  cbn zeta.
  apply (playerHasWon_exact
           (run [ApplyMove (mkGameMove "p1" "g" 0); ApplyMove (mkGameMove "p2" "g" 3);
                 ApplyMove (mkGameMove "p1" "g" 1); ApplyMove (mkGameMove "p2" "g" 4);
                 ApplyMove (mkGameMove "p1" "g" 2)] started)
           (mkGameMove "p1" "g" 2)).
  - unfold started. do 2 apply reachable_run. apply reachable_new.
  - vm_compute. reflexivity.
Defined.

(** X2. A reachable game never holds more than two players nor the same
    player twice, and while its status is WAITING_TO_START it holds at most
    one. *)
Theorem reachable_players w :
  reachable w →
  length (playersOf w) ≤ 2 ∧ NoDup (playersOf w) ∧
  (statusOf w = WAITING_TO_START → length (playersOf w) ≤ 1).
Proof.
  induction 1 as [objs gid|w c _ (Hlen & Hnd & Hwait)].
  - cbn. repeat split; [lia|apply NoDup_nil_2|lia].
  - destruct c as [player|player|mv]; cbn [call].
    + unfold after, statusOf, playersOf in *. rewrite join_run, _join_run.
      repeat case_decide; cbn [fst this state _players withState status set_status set_x set_o];
        rewrite ?length_app; cbn [length].
      all: repeat split; try done; try lia.
      all: try (apply NoDup_app; repeat split; [done| |apply NoDup_singleton];
                by intros ? ? ->%list_elem_of_singleton).
      all: intros Hs; specialize (Hwait Hs); lia.
    + destruct w as [objs [gid st players]].
      unfold after, statusOf, playersOf in *. rewrite leave_run, _leave_run.
      unfold withState. cbn [this state _players objects id] in *.
      assert (Hfilter : ∀ l : list Player,
                length (filter (λ p, Player.id p ≠ Player.id player) l) ≤ length l)
        by (intros; apply length_filter).
      destruct (decide (player ∉ players)) as [Hin|Hin]; [repeat split; assumption|].
      assert (Hin' : player ∈ players)
        by (destruct (decide (player ∈ players)); [assumption|tauto]).
      assert (Hremoved :
                length (filter (λ p, Player.id p ≠ Player.id player) players) ≤ 1).
      { pose proof (length_filter_lt (λ p, Player.id p ≠ Player.id player) _ _ Hin') as Hlt.
        cbn in Hlt. specialize (Hlt ltac:(tauto)). lia. }
      destruct (decide (status st = IN_PROGRESS)) as [Hs|Hs].
      * destruct players as [|p0 [|p1 rest]];
          repeat case_decide; cbn [fst this state _players status set_status set_winner].
        all: repeat split; try done; try lia.
        all: try (etrans; [apply Hfilter|done]).
        all: by apply NoDup_filter.
      * cbn [fst this state _players status set_status].
        repeat split; [etrans; [apply Hfilter|done]|by apply NoDup_filter|done].
    + rewrite players_after_applyMove. repeat split; try done.
      intros Hs. apply Hwait.
      destruct (status_after_applyMove w mv) as [<-|Hover]; [done|congruence].
Qed.

Lemma reachable_players_witness :
  length (playersOf (run [Leave alice; Join carol] started)) ≤ 2 ∧
  NoDup (playersOf (run [Leave alice; Join carol] started)).
Proof.
  destruct (reachable_players (run [Leave alice; Join carol] started)) as (Hlen & Hnd & _).
  - unfold started. do 2 apply reachable_run. apply reachable_new.
  - by split.
Defined.

Lemma turn_snoc ms m : turn (ms ++ [m]) = opposite (gamePiece m).
Proof. unfold turn. by rewrite last_snoc. Qed.

Lemma opposite_ne piece : opposite piece ≠ piece.
Proof. by destruct piece. Qed.

(** X3. No player id has two moves accepted in a row: right after an
    accepted move every move submitted with the same player id is rejected,
    with MOVE_NOT_YOUR_TURN_MESSAGE when the game is still in progress and
    the cell is free. *)
Theorem no_two_moves_in_a_row w mv mv' :
  completion (applyMove mv w) = Return tt →
  playerID mv' = playerID mv →
  let w' := after (applyMove mv w) in
  (∃ message, completion (applyMove mv' w') = Throw (InvalidParametersError message)) ∧
  (statusOf w' = IN_PROGRESS → target w' mv' ∉ cell <$> log w' →
     completion (applyMove mv' w') =
       Throw (InvalidParametersError MOVE_NOT_YOUR_TURN_MESSAGE)).
Proof.
  intros Hv%applyMove_Return Hpid. cbn zeta.
  pose proof (log_after_accepted w mv Hv) as Hlog.
  destruct (seats_after_applyMove w mv) as [Hx _].
  assert (Hturn : markOf (state (this (after (applyMove mv w)))) (playerID mv')
                  ≠ turn (log (after (applyMove mv w)))).
  { rewrite Hlog, turn_snoc. cbn [gamePiece]. unfold markOf. rewrite Hx, Hpid.
    intros Heq. by apply (opposite_ne (markOf (state (this w)) (playerID mv))). }
  split.
  - rewrite applyMove_completion.
    destruct (validation _ mv') as [message|] eqn:Hv'; [by exists message|].
    apply validation_None in Hv' as (_ & _ & Heq). done.
  - intros Hs Hfree. rewrite applyMove_completion. unfold validation.
    unfold statusOf in Hs.
    rewrite decide_False by (intros H; by apply H).
    rewrite decide_False by done.
    by rewrite decide_True.
Qed.

Lemma no_two_moves_in_a_row_witness :
  completion (applyMove (mkGameMove "p1" "g" 1)
                (after (applyMove (mkGameMove "p1" "g" 0) started))) =
    Throw (InvalidParametersError MOVE_NOT_YOUR_TURN_MESSAGE).
Proof.
  destruct (no_two_moves_in_a_row started (mkGameMove "p1" "g" 0) (mkGameMove "p1" "g" 1))
    as [_ Hturn].
  - vm_compute. reflexivity.
  - reflexivity.
  - apply Hturn.
    + vm_compute. reflexivity.
    + vm_compute. intros H.
      repeat (apply elem_of_cons in H as [H|H]; [discriminate H|]).
      by apply not_elem_of_nil in H.
Defined.

Lemma log_length_after_call c w :
  length (log (after (call c w))) =
    length (log w) + match c, completion (call c w) with
                     | ApplyMove _, Return _ => 1
                     | _, _ => 0
                     end.
Proof.
  destruct c as [player|player|mv]; cbn [call].
  - rewrite join_log. lia.
  - rewrite leave_log. lia.
  - rewrite applyMove_completion.
    destruct (validation w mv) as [message|] eqn:Hv.
    + rewrite <- !(length_fmap cell), (applyMove_after_rejected _ _ _ Hv), log_marked_cells.
      lia.
    + rewrite (log_after_accepted _ _ Hv), length_app. simpl. lia.
Qed.

(** X4. Along every run the move log grows by one with each [applyMove]
    that returns, and with nothing else: its length after the run is its
    length before plus the number of accepted moves. *)
Theorem log_length_counts_accepted cs w :
  length (log (run cs w)) = length (log w) + acceptedMoves cs w.
Proof.
  revert w. induction cs as [|c cs IH]; intros w; cbn [run foldl acceptedMoves]; [lia|].
  change (foldl _ (after (call c w)) cs) with (run cs (after (call c w))).
  rewrite IH, log_length_after_call. lia.
Qed.

(** X5. On the empty log of a game in progress a move is accepted exactly
    when its player id is the one in seat [x]; from any other id it is
    rejected with MOVE_NOT_YOUR_TURN_MESSAGE, wherever it goes. *)
Theorem first_move_is_x w mv :
  statusOf w = IN_PROGRESS →
  moves (state (this w)) = [] →
  (completion (applyMove mv w) = Return tt ↔ x (state (this w)) = Some (playerID mv)) ∧
  (x (state (this w)) ≠ Some (playerID mv) →
     completion (applyMove mv w) = Throw (InvalidParametersError MOVE_NOT_YOUR_TURN_MESSAGE)).
Proof.
  intros Hs Hempty. unfold statusOf in Hs.
  assert (Hlog : log w = []) by (unfold log; by rewrite Hempty).
  rewrite !applyMove_completion. unfold validation.
  rewrite decide_False by (intros H; by apply H).
  rewrite Hlog. rewrite decide_False by apply not_elem_of_nil.
  unfold turn, markOf. cbn [last].
  destruct (decide (x (state (this w)) = Some (playerID mv))) as [Hx|Hx].
  - rewrite decide_False by (intros H; by apply H). done.
  - rewrite decide_True by done. split; [|done]. split; [done|]. intros H. by apply Hx in H.
Qed.

Lemma first_move_is_x_witness :
  completion (applyMove (mkGameMove "p2" "g" 4) started) =
    Throw (InvalidParametersError MOVE_NOT_YOUR_TURN_MESSAGE).
Proof.
  destruct (first_move_is_x started (mkGameMove "p2" "g" 4)) as [_ Hother].
  - vm_compute. reflexivity.
  - vm_compute. reflexivity.
  - apply Hother. vm_compute. discriminate.
Defined.

Lemma visited_head cs w : w ∈ visited cs w.
Proof. destruct cs; apply list_elem_of_here. Qed.

Lemma elem_of_tail {A} (a : A) (l : list A) : a ∈ tail l → a ∈ l.
Proof. destruct l; [done|]. by apply list_elem_of_further. Qed.

(** X6. The winner is written only when a game ends: if a run changes the
    winner, one of the worlds it reaches after a call has the status
    OVER. *)
Theorem winner_changes_only_over cs w :
  winnerOf (run cs w) ≠ winnerOf w →
  ∃ w', w' ∈ tail (visited cs w) ∧ statusOf w' = OVER.
Proof.
  revert w. induction cs as [|c cs IH]; intros w Hne; [done|].
  cbn [run foldl] in Hne.
  change (foldl _ (after (call c w)) cs) with (run cs (after (call c w))) in Hne.
  cbn [visited tail].
  destruct (decide (statusOf (after (call c w)) = OVER)) as [Hover|Hover].
  - exists (after (call c w)). split; [apply visited_head|done].
  - rewrite <- (winner_written_with_over c w Hover) in Hne.
    destruct (IH _ Hne) as (w' & Hin & Hs).
    exists w'. split; [by apply elem_of_tail|done].
Qed.

Lemma winner_changes_only_over_witness :
  ∃ w', w' ∈ tail (visited [Leave alice] started) ∧ statusOf w' = OVER.
Proof.
  apply (winner_changes_only_over [Leave alice] started).
  vm_compute. discriminate.
Defined.

(** * Further properties of the router *)

Lemma id_after_call c w : id (this (after (call c w))) = id (this w).
Proof.
  destruct c as [player|player|mv]; cbn [call].
  - unfold after. rewrite join_run, _join_run. by repeat case_decide.
  - unfold after. rewrite leave_run, _leave_run.
    repeat case_decide; try done.
    all: destruct (_players (this w)) as [|p0 [|p1 rest]]; try done.
    all: by repeat case_decide.
  - destruct (validation w mv) as [message|] eqn:Hv.
    + by rewrite (status_after_rejected _ _ _ Hv).
    + rewrite (applyMove_after_accepted _ _ Hv). unfold settled.
      by repeat case_match.
Qed.

(** X7. A command that returns has called [_emitAreaChanged] exactly
    once. *)
Theorem returning_command_emits_once gid command player w ret :
  completion (handleCommand gid command player w) = Return ret →
  emittedOf (after (handleCommand gid command player w)) = S (emittedOf w).
Proof.
  destruct w as [objs [g hist occ n]]. destruct command as [|gameID|gameID move|type].
  - area_unfold. simpl. destruct g as [g|]; simpl.
    + destruct (join player _) as [gw' [[]|e]]; simpl; done.
    + done.
  - area_unfold. simpl. destruct g as [g|]; [|done].
    case_bool_decide; [done|]. simpl.
    destruct (leave player _) as [gw' [[]|e]]; simpl; [|done].
    case_bool_decide; simpl; [|done].
    destruct occ as [|o0 [|o1 occ']]; simpl; try done.
    all: repeat (case_bool_decide; simpl); done.
  - area_unfold. simpl. destruct g as [g|]; [|done].
    case_bool_decide; [done|]. simpl.
    destruct (applyMove _ _) as [gw' [[]|e]]; simpl; [|done].
    case_bool_decide; simpl; [|done].
    destruct occ as [|o0 [|o1 occ']]; simpl; try done.
    all: repeat (case_bool_decide; simpl); done.
  - done.
Qed.

Lemma returning_command_emits_once_witness :
  emittedOf (after (handleCommand "g" JoinGame alice (areaWorld [alice; bob]))) = 1.
Proof.
  apply (returning_command_emits_once "g" JoinGame alice (areaWorld [alice; bob])
           (TicTacToeGameArea.JoinGameReturn "g")).
  vm_compute. reflexivity.
Defined.

(** X8. A command that fails with an [InvalidParametersError] leaves the
    area object as it was (the game's list of move references, status,
    seats, winner and players, the history, the occupants) and emits no area
    change.  Of the move objects, each keeps its row and column and all but
    the one the command carries are unchanged; a move command that reaches
    the engine has written the mark deduced for the player into its move
    object before it is rejected, also when that object is one the game has
    recorded.  So the recorded moves read as before when the command
    carries no recorded move object. *)
Theorem failing_command_leaves_area gid command player w message :
  completion (handleCommand gid command player w) = Throw (InvalidParametersError message) →
  let w' := after (handleCommand gid command player w) in
  TicTacToeGameArea.this w' = TicTacToeGameArea.this w ∧
  (∀ r, cell (TicTacToeGameArea.objects w' r) = cell (TicTacToeGameArea.objects w r)) ∧
  (∀ r, (∀ gameID, command ≠ GameMoveCommand gameID r) →
        TicTacToeGameArea.objects w' r = TicTacToeGameArea.objects w r) ∧
  (∀ g move, command = GameMoveCommand (id g) move → gameOf w = Some g →
     TicTacToeGameArea.objects w' move =
       mkMove (markOf (state g) (Player.id player))
              (col (TicTacToeGameArea.objects w move))
              (row (TicTacToeGameArea.objects w move))) ∧
  (∀ g, gameOf w = Some g →
     (∀ gameID move, command = GameMoveCommand gameID move → move ∉ moves (state g)) →
     log (engineWorld w' g) = log (engineWorld w g)).
Proof.
  intros Hthrow. cbn zeta.
  assert (Hmain :
    TicTacToeGameArea.this (after (handleCommand gid command player w))
      = TicTacToeGameArea.this w ∧
    (∀ r, cell (TicTacToeGameArea.objects (after (handleCommand gid command player w)) r)
          = cell (TicTacToeGameArea.objects w r)) ∧
    (∀ r, (∀ gameID, command ≠ GameMoveCommand gameID r) →
          TicTacToeGameArea.objects (after (handleCommand gid command player w)) r
          = TicTacToeGameArea.objects w r) ∧
    (∀ g move, command = GameMoveCommand (id g) move → gameOf w = Some g →
       TicTacToeGameArea.objects (after (handleCommand gid command player w)) move =
         mkMove (markOf (state g) (Player.id player))
                (col (TicTacToeGameArea.objects w move))
                (row (TicTacToeGameArea.objects w move)))).
  { revert Hthrow.
    destruct w as [objs [g hist occ n]]. destruct command as [|gameID|gameID ref|type].
    - area_unfold. simpl. destruct g as [g|]; simpl; [|done].
      pose proof (failure_leaves_game_unchanged (Join player) (mkWorld objs g) message) as Hf.
      cbn [call] in Hf. unfold completion, after in Hf.
      destruct (join player _) as [gw' [[]|e]]; simpl in *; [done|].
      intros [= ->]. destruct (Hf eq_refl) as (-> & Hobjs & _).
      split_and!; [done| | |done].
      + intros r. by rewrite Hobjs.
      + intros r _. by rewrite Hobjs.
    - area_unfold. simpl. destruct g as [g|]; [|done].
      case_bool_decide; [done|]. simpl.
      pose proof (failure_leaves_game_unchanged (Leave player) (mkWorld objs g) message) as Hf.
      cbn [call] in Hf. unfold completion, after in Hf.
      destruct (leave player _) as [gw' [[]|e]]; simpl in *.
      + case_bool_decide; simpl; [|done].
        destruct occ as [|o0 [|o1 occ']]; simpl; try done.
        all: repeat (case_bool_decide; simpl); done.
      + intros [= ->]. destruct (Hf eq_refl) as (-> & Hobjs & _).
        split_and!; [done| | |done].
        * intros r. by rewrite Hobjs.
        * intros r _. by rewrite Hobjs.
    - area_unfold. simpl. destruct g as [g|]; [|done].
      case_bool_decide as Hid; simpl.
      { intros _. split_and!; [done..|].
        intros g' move' [= -> ->] [= <-]. by destruct Hid. }
      pose proof (applyMove_completion (mkWorld objs g)
                    (mkGameMove (Player.id player) gameID ref)) as Hc.
      destruct (validation (mkWorld objs g) (mkGameMove (Player.id player) gameID ref))
        as [m|] eqn:Hv.
      + pose proof (applyMove_after_rejected _ _ _ Hv) as Ha.
        unfold completion, after in Hc, Ha.
        destruct (applyMove _ _) as [gw' [[]|e]]; simpl in *; [done|].
        intros _. subst gw'. split_and!.
        * done.
        * intros r. apply marked_cell.
        * intros r Hr. apply marked_objects_ne. cbn [move].
          intros ->. by apply (Hr gameID).
        * intros g' move' [= _ ->] [= <-]. apply marked_objects_eq.
      + unfold completion in Hc.
        destruct (applyMove _ _) as [gw' [[]|e]]; simpl in *; [|done].
        case_bool_decide; simpl; [|done].
        destruct occ as [|o0 [|o1 occ']]; simpl; try done.
        all: repeat (case_bool_decide; simpl); done.
    - done. }
  destruct Hmain as (Hthis & Hcell & Hobjs & Hmove).
  split_and!; [done..|].
  intros g Hg Hfresh. unfold log, engineWorld.
  cbn [objects this]. apply list_fmap_ext. intros k r Hr.
  apply Hobjs. intros gameID ->. apply (Hfresh gameID r eq_refl).
  by apply list_elem_of_lookup_2 in Hr.
Qed.

Lemma failing_command_leaves_area_witness :
  let w := handle [(JoinGame, alice); (JoinGame, bob); (GameMoveCommand "g" 0, alice)]
                  (areaWorld [alice; bob]) in
  TicTacToeGameArea.objects w 0 = mkMove PieceX G0 G0 ∧
  TicTacToeGameArea.this (after (handleCommand "g" (GameMoveCommand "g" 0) bob w))
    = TicTacToeGameArea.this w ∧
  TicTacToeGameArea.objects (after (handleCommand "g" (GameMoveCommand "g" 0) bob w)) 0
    = mkMove PieceO G0 G0.
Proof.
  cbn zeta. split; [vm_compute; reflexivity|].
  destruct (failing_command_leaves_area "g" (GameMoveCommand "g" 0) bob
              (handle [(JoinGame, alice); (JoinGame, bob); (GameMoveCommand "g" 0, alice)]
                      (areaWorld [alice; bob]))
              BOARD_POSITION_NOT_EMPTY_MESSAGE) as (Hthis & _ & _ & Hmove & _).
  - vm_compute. reflexivity.
  - split; [exact Hthis|].
    apply (Hmove (mkGame "g" (mkState [0] IN_PROGRESS (Some "p1") (Some "p2") None)
                         [alice; bob]) 0); vm_compute; reflexivity.
Defined.

(** X9. A forfeit in an area with fewer than two occupants: the leave
    handler throws a [TypeError] on [this.occupants[1]] once the engine has
    ended the game and the area change is emitted; the game stays OVER and
    no record is written. *)
Theorem forfeit_without_two_occupants gid g player other w :
  gameOf w = Some g →
  status (state g) = IN_PROGRESS →
  (_players g = [player; other] ∨ _players g = [other; player]) →
  length (occupantsOf w) < 2 →
  let r := handleCommand gid (LeaveGame (id g)) player w in
  completion r = Throw TypeError ∧
  statusIn (after r) = Some OVER ∧
  historyOf (after r) = historyOf w ∧
  emittedOf (after r) = S (emittedOf w).
Proof.
  cbn zeta. unfold statusIn.
  destruct w as [objs [g0 hist occ n]].
  cbn [TicTacToeGameArea._game TicTacToeGameArea._occupants
       TicTacToeGameArea._history TicTacToeGameArea.areaChangedEmitted
       TicTacToeGameArea.this].
  intros -> Hs Hplayers Hocc.
  area_unfold. simpl.
  rewrite bool_decide_eq_false_2 by (intros H; by apply H). simpl.
  rewrite leave_run, _leave_run. cbn [this objects].
  rewrite decide_False
    by (intros Hn; apply Hn; destruct Hplayers as [-> | ->];
        [apply list_elem_of_here|apply list_elem_of_further, list_elem_of_here]).
  rewrite decide_True by done.
  destruct occ as [|o0 [|o1 occ']]; [| |simpl in Hocc; lia].
  all: destruct Hplayers as [-> | ->]; simpl.
  all: repeat (case_decide; simpl; try done).
  all: repeat (case_bool_decide; simpl; try done).
Qed.

Lemma forfeit_without_two_occupants_witness :
  completion (handleCommand "g" (LeaveGame "g") alice
                (handle [(JoinGame, alice); (JoinGame, bob)] (areaWorld [alice]))) =
    Throw TypeError.
Proof.
  apply (forfeit_without_two_occupants "g"
           (mkGame "g" (mkState [] IN_PROGRESS (Some "p1") (Some "p2") None) [alice; bob])
           alice bob
           (handle [(JoinGame, alice); (JoinGame, bob)] (areaWorld [alice]))).
  - vm_compute. reflexivity.
  - reflexivity.
  - by left.
  - vm_compute. lia.
Defined.

(** X10. When the two participants carry the same user name, the two
    computed keys of the scores of a forfeit coincide and the later one
    wins: the record holds that one name with the score 0, and no score
    1. *)
Theorem forfeit_record_same_name gid g player other rest w :
  gameOf w = Some g →
  status (state g) = IN_PROGRESS →
  (_players g = [player; other] ∨ _players g = [other; player]) →
  (occupantsOf w = player :: other :: rest ∨ occupantsOf w = other :: player :: rest) →
  Player.id player ≠ Player.id other →
  Player.userName player = Player.userName other →
  historyOf (after (handleCommand gid (LeaveGame (id g)) player w)) =
    historyOf w ++ [GameResult.mk (id g) {[ Player.userName player := 0 ]}].
Proof.
  intros Hg Hs Hplayers Hocc Hid Hname.
  destruct (handleLeave_participants gid g player other rest w Hg Hs Hplayers Hocc Hid)
    as (_ & _ & ->).
  unfold TicTacToeGameArea.scoresOf. rewrite Hname, insert_insert_eq.
  by rewrite insert_empty.
Qed.

Lemma forfeit_record_same_name_witness :
  historyOf (after (handleCommand "g" (LeaveGame "g") (Player.mk "p1" "sam")
              (handle [(JoinGame, Player.mk "p1" "sam"); (JoinGame, Player.mk "p2" "sam")]
                 (areaWorld [Player.mk "p1" "sam"; Player.mk "p2" "sam"])))) =
    [GameResult.mk "g" {[ "sam" := 0 ]}].
Proof.
  apply (forfeit_record_same_name "g"
           (mkGame "g" (mkState [] IN_PROGRESS (Some "p1") (Some "p2") None)
                   [Player.mk "p1" "sam"; Player.mk "p2" "sam"])
           (Player.mk "p1" "sam") (Player.mk "p2" "sam") []
           (handle [(JoinGame, Player.mk "p1" "sam"); (JoinGame, Player.mk "p2" "sam")]
              (areaWorld [Player.mk "p1" "sam"; Player.mk "p2" "sam"]))).
  - vm_compute. reflexivity.
  - reflexivity.
  - by left.
  - by left.
  - discriminate.
  - reflexivity.
Defined.

(** X11. An area that has a game keeps it: no command replaces or drops
    the game object, whose id stays; a join command that returns returns
    that id. *)
Theorem area_keeps_its_game gid command player w g :
  gameOf w = Some g →
  (∃ g', gameOf (after (handleCommand gid command player w)) = Some g' ∧ id g' = id g) ∧
  (∀ ret, command = JoinGame →
     completion (handleCommand gid command player w) = Return ret →
     ret = TicTacToeGameArea.JoinGameReturn (id g)).
Proof.
  destruct w as [objs [g0 hist occ n]].
  cbn [TicTacToeGameArea._game TicTacToeGameArea.this]. intros ->.
  destruct command as [|gameID|gameID move|type].
  - pose proof (id_after_call (Join player) (mkWorld objs g)) as Hid.
    cbn [call] in Hid. unfold after in Hid.
    area_unfold. simpl.
    destruct (join player _) as [gw' [[]|e]]; simpl in *.
    + split; [by exists (this gw')|]. intros ret _ [= <-]. by rewrite Hid.
    + split; [by exists (this gw')|]. by intros ret _ ?.
  - split; [|by intros ret ?].
    pose proof (id_after_call (Leave player) (mkWorld objs g)) as Hid.
    cbn [call] in Hid. unfold after in Hid.
    area_unfold. simpl.
    case_bool_decide; simpl; [by exists g|].
    destruct (leave player _) as [gw' [[]|e]]; simpl in *; [|by exists (this gw')].
    case_bool_decide; simpl; [|by exists (this gw')].
    destruct occ as [|o0 [|o1 occ']]; simpl; try (by exists (this gw')).
    all: repeat (case_bool_decide; simpl); by exists (this gw').
  - split; [|by intros ret ?].
    pose proof (id_after_call (ApplyMove (mkGameMove (Player.id player) gameID move))
                  (mkWorld objs g)) as Hid.
    cbn [call] in Hid. unfold after in Hid.
    area_unfold. simpl.
    case_bool_decide; simpl; [by exists g|].
    destruct (applyMove _ _) as [gw' [[]|e]]; simpl in *; [|by exists (this gw')].
    case_bool_decide; simpl; [|by exists (this gw')].
    destruct occ as [|o0 [|o1 occ']]; simpl; try (by exists (this gw')).
    all: repeat (case_bool_decide; simpl); by exists (this gw').
  - split; [by exists g|by intros ret ?].
Qed.

Lemma area_keeps_its_game_witness :
  ∃ g', gameOf (after (handleCommand "h" JoinGame carol
                         (handle [(JoinGame, alice); (JoinGame, bob); (LeaveGame "g", alice);
                                  (LeaveGame "g", bob)] (areaWorld [alice; bob; carol]))))
        = Some g' ∧ id g' = "g".
Proof.
  apply (area_keeps_its_game "h" JoinGame carol
           (handle [(JoinGame, alice); (JoinGame, bob); (LeaveGame "g", alice);
                    (LeaveGame "g", bob)] (areaWorld [alice; bob; carol]))
           (mkGame "g" (mkState [] WAITING_TO_START (Some "p1") (Some "p2") (Some "p2")) [])).
  vm_compute. reflexivity.
Defined.

(** X12. A join command in an area without a game creates one and joins
    it: the command returns the id of the new game, the player is its only
    player and sits in seat [x], the status is WAITING_TO_START, the area
    change is emitted once and the history is left as it is. *)
Theorem join_creates_game gid player w :
  gameOf w = None →
  let r := handleCommand gid JoinGame player w in
  completion r = Return (TicTacToeGameArea.JoinGameReturn gid) ∧
  gameOf (after r) =
    Some (mkGame gid (mkState [] WAITING_TO_START (Some (Player.id player)) None None)
                 [player]) ∧
  historyOf (after r) = historyOf w ∧
  emittedOf (after r) = S (emittedOf w).
Proof.
  destruct w as [objs [g0 hist occ n]].
  cbn [TicTacToeGameArea._game TicTacToeGameArea.this]. intros ->. done.
Qed.

Lemma join_creates_game_witness :
  completion (handleCommand "g" JoinGame alice (areaWorld [alice; bob])) =
    Return (TicTacToeGameArea.JoinGameReturn "g").
Proof.
  apply (join_creates_game "g" alice (areaWorld [alice; bob])). reflexivity.
Defined.

(** * The second version of the engine *)

Lemma countLoop_marks mi cc cr later :
  TicTacToeGameB.countLoop mi cc cr later =
    (cc + marks_on (ColumnLine (col mi)) (gamePiece mi) later,
     cr + marks_on (RowLine (row mi)) (gamePiece mi) later).
Proof.
  revert cc cr. induction later as [|mj later IH]; intros cc cr.
  - rewrite !marks_on_nil. cbn. f_equal; lia.
  - cbn [TicTacToeGameB.countLoop]. rewrite IH, !marks_on_cons. cbn [on_line].
    repeat case_bool_decide; cbn [andb]; repeat case_decide; try tauto; f_equal; lia.
Qed.

Lemma marks_on_cons_le l piece m ms : marks_on l piece ms ≤ marks_on l piece (m :: ms).
Proof. rewrite marks_on_cons. lia. Qed.

Lemma marks_on_cons_on l m ms :
  on_line l m → marks_on l (gamePiece m) (m :: ms) = S (marks_on l (gamePiece m) ms).
Proof. intros Hon. rewrite marks_on_cons. by rewrite decide_True. Qed.

Lemma marks_on_cons_off l piece m ms :
  ¬ on_line l m → marks_on l piece (m :: ms) = marks_on l piece ms.
Proof. intros Hoff. rewrite marks_on_cons. rewrite decide_False; [done|tauto]. Qed.

(** A diagonal array that holds one piece only is emptied or extended by
    a piece it already holds. *)
Lemma pushOrReset_cases d p piece :
  (∀ q, q ∈ d → q = p) →
  TicTacToeGameB.pushOrReset d piece = [] ∨
  (TicTacToeGameB.pushOrReset d piece = d ++ [piece] ∧ ∀ q, q ∈ d → q = piece).
Proof.
  intros Hd. unfold TicTacToeGameB.pushOrReset.
  destruct d as [|q0 d _] using rev_ind.
  - right. split; [done|]. by intros q ?%elem_of_nil.
  - rewrite last_snoc, length_app. cbn [length].
    rewrite bool_decide_eq_true_2 by lia. cbn [andb].
    case_bool_decide as Hlast; [by left|]. right. split; [done|].
    assert (q0 = piece) as -> by (destruct (decide (q0 = piece)); [done|congruence]).
    intros q Hq. rewrite (Hd q Hq). symmetry. apply Hd.
    apply elem_of_app. right. by apply list_elem_of_singleton.
Qed.

(** One step of a diagonal array along its line [l]. *)
Lemma diagonal_step l d mi later :
  (∃ p, ∀ q, q ∈ d → q = p) →
  let d' := if bool_decide (on_line l mi)
            then TicTacToeGameB.pushOrReset d (gamePiece mi) else d in
  (∃ p, ∀ q, q ∈ d' → q = p) ∧
  (length d' = 3 →
     ∃ p, (∀ q, q ∈ d → q = p) ∧ 3 ≤ length d + marks_on l p (mi :: later)) ∧
  ((∃ p, (∀ q, q ∈ d' → q = p) ∧ 3 ≤ length d' + marks_on l p later) →
     (∃ p, (∀ q, q ∈ d → q = p) ∧ 3 ≤ length d + marks_on l p (mi :: later)) ∨
     (∃ p, 3 ≤ marks_on l p (mi :: later))).
Proof.
  intros [p Hd]. cbn zeta. case_bool_decide as Hon.
  - destruct (pushOrReset_cases d p (gamePiece mi) Hd) as [-> | [-> Hpiece]].
    + split; [exists p; by intros q ?%elem_of_nil|]. split; [done|].
      intros (p' & _ & Hp'). right. exists p'. cbn in Hp'.
      pose proof (marks_on_cons_le l p' mi later). lia.
    + split; [|split].
      * exists (gamePiece mi). intros q [Hq| ->%list_elem_of_singleton]%elem_of_app; auto.
      * rewrite length_app. cbn [length]. intros Hlen.
        exists (gamePiece mi). split; [done|]. rewrite marks_on_cons_on by done. lia.
      * intros (p' & Hp' & Hlen). left.
        assert (p' = gamePiece mi) as ->.
        { symmetry. apply Hp'. apply elem_of_app. right. by apply list_elem_of_singleton. }
        exists (gamePiece mi). split; [done|].
        rewrite length_app in Hlen. cbn [length] in Hlen.
        rewrite marks_on_cons_on by done. lia.
  - split; [by exists p|]. split.
    + intros Hlen. exists p. split; [done|]. lia.
    + intros (p' & Hp' & Hlen). left. exists p'. split; [done|].
      pose proof (marks_on_cons_le l p' mi later). lia.
Qed.

Lemma hasWonLoop_cons tl tr mi later :
  TicTacToeGameB.hasWonLoop tl tr (mi :: later) =
    let tl' := if bool_decide (on_line MainDiagonal mi)
               then TicTacToeGameB.pushOrReset tl (gamePiece mi) else tl in
    let tr' := if bool_decide (on_line AntiDiagonal mi)
               then TicTacToeGameB.pushOrReset tr (gamePiece mi) else tr in
    if bool_decide (S (marks_on (RowLine (row mi)) (gamePiece mi) later) = 3)
       || bool_decide (S (marks_on (ColumnLine (col mi)) (gamePiece mi) later) = 3)
       || bool_decide (length tl' = 3) || bool_decide (length tr' = 3)
    then true
    else TicTacToeGameB.hasWonLoop tl' tr' later.
Proof.
  cbn [TicTacToeGameB.hasWonLoop]. rewrite countLoop_marks. cbn [fst snd on_line].
  assert (H1 : bool_decide (col mi = row mi) = bool_decide (row mi = col mi))
    by (apply bool_decide_ext; split; congruence).
  assert (H2 : bool_decide (pos (col mi) + pos (row mi) = 2)
               = bool_decide (pos (row mi) + pos (col mi) = 2))
    by (apply bool_decide_ext; lia).
  by rewrite H1, H2.
Qed.

(** A true answer of the outer loop comes from a line that holds three
    moves of one piece. *)
Lemma hasWonLoop_sound ms tl tr :
  (∃ p, ∀ q, q ∈ tl → q = p) → (∃ p, ∀ q, q ∈ tr → q = p) →
  TicTacToeGameB.hasWonLoop tl tr ms = true →
  (∃ piece l, 3 ≤ marks_on l piece ms) ∨
  (∃ p, (∀ q, q ∈ tl → q = p) ∧ 3 ≤ length tl + marks_on MainDiagonal p ms) ∨
  (∃ p, (∀ q, q ∈ tr → q = p) ∧ 3 ≤ length tr + marks_on AntiDiagonal p ms).
Proof.
  revert tl tr. induction ms as [|mi later IH]; intros tl tr Htl Htr; [done|].
  rewrite hasWonLoop_cons. cbn zeta.
  destruct (diagonal_step MainDiagonal tl mi later Htl) as (Htl' & Hl3 & Hlstep).
  destruct (diagonal_step AntiDiagonal tr mi later Htr) as (Htr' & Hr3 & Hrstep).
  cbn zeta in *.
  set (tl' := if bool_decide (on_line MainDiagonal mi) then _ else tl) in *.
  set (tr' := if bool_decide (on_line AntiDiagonal mi) then _ else tr) in *.
  case_bool_decide as Hrow.
  { intros _. left. exists (gamePiece mi), (RowLine (row mi)).
    rewrite marks_on_cons_on by done. lia. }
  case_bool_decide as Hcol.
  { intros _. left. exists (gamePiece mi), (ColumnLine (col mi)).
    rewrite marks_on_cons_on by done. lia. }
  case_bool_decide as Hl.
  { intros _. right. left. by apply Hl3. }
  case_bool_decide as Hr.
  { intros _. right. right. by apply Hr3. }
  cbn [orb]. intros Hrec.
  destruct (IH tl' tr' Htl' Htr' Hrec) as [(piece & l & Hline)|[Hc|Hc]].
  - left. exists piece, l. pose proof (marks_on_cons_le l piece mi later). lia.
  - destruct (Hlstep Hc) as [?|[p Hp]]; [by right; left|]. left. by exists p, MainDiagonal.
  - destruct (Hrstep Hc) as [?|[p Hp]]; [by right; right|]. left. by exists p, AntiDiagonal.
Qed.

(** A row or a column that holds three moves of a piece is seen. *)
Lemma hasWonLoop_row_ge ms tl tr r p :
  3 ≤ marks_on (RowLine r) p ms → TicTacToeGameB.hasWonLoop tl tr ms = true.
Proof.
  revert tl tr. induction ms as [|mi later IH]; intros tl tr.
  { rewrite marks_on_nil. lia. }
  rewrite hasWonLoop_cons, marks_on_cons. cbn zeta. cbn [on_line].
  destruct (decide (3 ≤ marks_on (RowLine r) p later)) as [Hl|Hl].
  { intros _. rewrite IH by done. by destruct (_ || _). }
  case_decide as Hmi; [|lia]. destruct Hmi as [<- <-]. intros Hm.
  rewrite (bool_decide_eq_true_2 (S _ = 3)) by lia. done.
Qed.

Lemma hasWonLoop_column_ge ms tl tr c p :
  3 ≤ marks_on (ColumnLine c) p ms → TicTacToeGameB.hasWonLoop tl tr ms = true.
Proof.
  revert tl tr. induction ms as [|mi later IH]; intros tl tr.
  { rewrite marks_on_nil. lia. }
  rewrite hasWonLoop_cons, marks_on_cons. cbn zeta. cbn [on_line].
  destruct (decide (3 ≤ marks_on (ColumnLine c) p later)) as [Hl|Hl].
  { intros _. rewrite IH by done. by destruct (_ || _). }
  case_decide as Hmi; [|lia]. destruct Hmi as [<- <-]. intros Hm.
  rewrite (bool_decide_eq_true_2 (S (marks_on (ColumnLine _) _ _) = 3)) by lia.
  by rewrite orb_true_r.
Qed.

Lemma pushOrReset_same d p :
  (∀ q, q ∈ d → q = p) → TicTacToeGameB.pushOrReset d p = d ++ [p].
Proof.
  intros Hd. unfold TicTacToeGameB.pushOrReset.
  destruct d as [|q0 d _] using rev_ind; [done|].
  assert (q0 = p) as ->.
  { apply Hd, elem_of_app. right. by apply list_elem_of_singleton. }
  rewrite last_snoc. rewrite (bool_decide_eq_false_2 (Some p ≠ Some p)) by tauto.
  by rewrite andb_false_r.
Qed.

(** A diagonal whose moves all carry one piece is seen once the array and
    the moves ahead hold three of it. *)
Lemma hasWonLoop_main ms tl tr p :
  (∀ q, q ∈ tl → q = p) → length tl < 3 →
  (∀ m, m ∈ ms → on_line MainDiagonal m → gamePiece m = p) →
  3 ≤ length tl + marks_on MainDiagonal p ms →
  TicTacToeGameB.hasWonLoop tl tr ms = true.
Proof.
  revert tl tr. induction ms as [|mi later IH]; intros tl tr Htl Hlen Hms.
  { rewrite marks_on_nil. lia. }
  rewrite hasWonLoop_cons. cbn zeta. intros Hm.
  assert (Hlater : ∀ m, m ∈ later → on_line MainDiagonal m → gamePiece m = p)
    by (intros m ?; apply Hms; by apply list_elem_of_further).
  destruct (decide (on_line MainDiagonal mi)) as [Hon|Hon];
    [rewrite (bool_decide_eq_true_2 (on_line MainDiagonal mi) Hon)
    |rewrite (bool_decide_eq_false_2 (on_line MainDiagonal mi) Hon)].
  - assert (gamePiece mi = p) as Hp by (apply Hms; [apply list_elem_of_here|done]).
    rewrite Hp in *. rewrite (pushOrReset_same tl) by done.
    rewrite <- Hp, marks_on_cons_on in Hm by done. rewrite Hp in Hm.
    rewrite length_app. cbn [length].
    destruct (decide (length tl + 1 = 3)) as [H3|H3].
    + rewrite (bool_decide_eq_true_2 (length tl + 1 = 3)) by done.
      by rewrite orb_true_r.
    + rewrite (IH (tl ++ [p])); [by destruct (_ || _)| |rewrite length_app; cbn; lia|done|
                                 rewrite length_app; cbn [length]; lia].
      intros q [Hq| ->%list_elem_of_singleton]%elem_of_app; auto.
  - rewrite marks_on_cons_off in Hm by done.
    rewrite (IH tl) by done. by destruct (_ || _).
Qed.

Lemma hasWonLoop_anti ms tl tr p :
  (∀ q, q ∈ tr → q = p) → length tr < 3 →
  (∀ m, m ∈ ms → on_line AntiDiagonal m → gamePiece m = p) →
  3 ≤ length tr + marks_on AntiDiagonal p ms →
  TicTacToeGameB.hasWonLoop tl tr ms = true.
Proof.
  revert tl tr. induction ms as [|mi later IH]; intros tl tr Htr Hlen Hms.
  { rewrite marks_on_nil. lia. }
  rewrite hasWonLoop_cons. cbn zeta. intros Hm.
  assert (Hlater : ∀ m, m ∈ later → on_line AntiDiagonal m → gamePiece m = p)
    by (intros m ?; apply Hms; by apply list_elem_of_further).
  destruct (decide (on_line AntiDiagonal mi)) as [Hon|Hon];
    [rewrite (bool_decide_eq_true_2 (on_line AntiDiagonal mi) Hon)
    |rewrite (bool_decide_eq_false_2 (on_line AntiDiagonal mi) Hon)].
  - assert (gamePiece mi = p) as Hp by (apply Hms; [apply list_elem_of_here|done]).
    rewrite Hp in *. rewrite (pushOrReset_same tr) by done.
    rewrite <- Hp, marks_on_cons_on in Hm by done. rewrite Hp in Hm.
    rewrite length_app. cbn [length].
    destruct (decide (length tr + 1 = 3)) as [H3|H3].
    + rewrite (bool_decide_eq_true_2 (length tr + 1 = 3)) by done.
      by rewrite orb_true_r.
    + rewrite (IH _ (tr ++ [p])); [by destruct (_ || _)| |rewrite length_app; cbn; lia|done|
                                   rewrite length_app; cbn [length]; lia].
      intros q [Hq| ->%list_elem_of_singleton]%elem_of_app; auto.
  - rewrite marks_on_cons_off in Hm by done.
    rewrite (IH _ tr) by done. by destruct (_ || _).
Qed.

Lemma NoDup_cells_inj (ms : list TicTacToeMove) m m' :
  NoDup (cell <$> ms) → m ∈ ms → m' ∈ ms → cell m = cell m' → m = m'.
Proof.
  induction ms as [|m0 ms IH]; [by intros _ ?%elem_of_nil|].
  rewrite fmap_cons, NoDup_cons. intros [Hm0 Hnd].
  rewrite !elem_of_cons. intros [->|Hm] [->|Hm'] Hc; [done| | |by apply IH].
  - destruct Hm0. rewrite Hc. by apply list_elem_of_fmap_2.
  - destruct Hm0. rewrite <- Hc. by apply list_elem_of_fmap_2.
Qed.

(** On a log without two moves on one cell, the outer loop answers true
    exactly when some line holds three moves of one piece. *)
Lemma hasWonLoop_has_line ms :
  NoDup (cell <$> ms) →
  TicTacToeGameB.hasWonLoop [] [] ms = true ↔ ∃ piece, has_line piece ms.
Proof.
  intros Hnd. unfold has_line, holds_three. split.
  - intros Hw. apply hasWonLoop_sound in Hw; [|by exists PieceX; intros ? ?%elem_of_nil..].
    destruct Hw as [(piece & l & Hl)|[(p & _ & Hp)|(p & _ & Hp)]].
    + by exists piece, l.
    + by exists p, MainDiagonal.
    + by exists p, AntiDiagonal.
  - intros (piece & l & Hl).
    assert (Hall : ∀ m, m ∈ ms → on_line l m → gamePiece m = piece).
    { intros m Hm Hon.
      apply (holds_three_complete l piece ms Hnd) in Hl.
      specialize (Hl (row m) (col m)).
      assert (Hon' : on_line l (mkMove piece (col m) (row m))) by (by destruct l).
      specialize (Hl Hon').
      by rewrite <- (NoDup_cells_inj ms _ _ Hnd Hl Hm eq_refl). }
    destruct l as [r|c| |].
    + by apply hasWonLoop_row_ge with r piece.
    + by apply hasWonLoop_column_ge with c piece.
    + apply hasWonLoop_main with piece; [by intros ? ?%elem_of_nil|cbn; lia|done|cbn; lia].
    + apply hasWonLoop_anti with piece; [by intros ? ?%elem_of_nil|cbn; lia|done|cbn; lia].
Qed.

(** X13. On a log without two moves on one cell, the second version's
    [_playerHasWon], which keeps two running diagonal arrays and counts
    rows and columns pairwise, answers true exactly when all three cells
    of some row, column or diagonal carry one piece. *)
Theorem playerHasWonB_exact w :
  NoDup (cell <$> log w) →
  TicTacToeGameB._playerHasWon (moves (state (this w))) w = true ↔
    ∃ piece l, line_complete l piece (log w).
Proof.
  intros Hnd. unfold TicTacToeGameB._playerHasWon. fold (log w).
  rewrite hasWonLoop_has_line by done. unfold has_line.
  split; intros (piece & l & Hl); exists piece, l;
    by apply (holds_three_complete l piece _ Hnd).
Qed.

Lemma playerHasWonB_exact_witness :
  let w := run [ApplyMove (mkGameMove "p1" "g" 0); ApplyMove (mkGameMove "p2" "g" 1);
                ApplyMove (mkGameMove "p1" "g" 4); ApplyMove (mkGameMove "p2" "g" 2);
                ApplyMove (mkGameMove "p1" "g" 8)] started in
  ∃ piece l, line_complete l piece (log w).
Proof.
  cbn zeta.
  apply (playerHasWonB_exact
           (run [ApplyMove (mkGameMove "p1" "g" 0); ApplyMove (mkGameMove "p2" "g" 1);
                 ApplyMove (mkGameMove "p1" "g" 4); ApplyMove (mkGameMove "p2" "g" 2);
                 ApplyMove (mkGameMove "p1" "g" 8)] started)).
  - apply reachable_NoDup_cells.
    unfold started. do 2 apply reachable_run. apply reachable_new.
  - vm_compute. reflexivity.
Defined.

Lemma _moveIsValidB_run mv w :
  TicTacToeGameB._moveIsValid (move mv) (moves (state (this w))) w
  = (w, checked w (move mv)).
Proof.
  unfold TicTacToeGameB._moveIsValid, checked.
  change (forEach _ (moves ?s)) with (forEach (cellCallback (move mv)) (moves s)).
  unfold bind at 1. unfold getState, gets. cbn beta iota.
  unfold bind at 1. unfold when at 1.
  case_bool_decide as Hs; [by rewrite decide_True|]. rewrite decide_False by (intros ?; congruence).
  unfold ret at 1. cbn beta iota.
  unfold bind at 1. rewrite forEach_cells.
  destruct (decide (Exists _ _)) as [He|He]; [done|].
  unfold bind, deref, gets, when, throw, ret. cbn beta iota.
  rewrite <- !bool_decide_and, !bool_decide_decide.
  repeat (destruct (decide _); try done).
  all: simpl; try case_bool_decide; simpl; try done; tauto.
Qed.

(** The second version of [applyMove], step by step. *)
Lemma applyMoveB_run mv w :
  TicTacToeGameB.applyMove mv w =
    match validation w mv with
    | Some message => (marked w mv, Throw (InvalidParametersError message))
    | None =>
        let w' := appended (marked w mv) mv in
        (if TicTacToeGameB._playerHasWon (moves (state (this w'))) w' then
           withState (set_winner (Some (playerID mv))) (withState (set_status OVER) w')
         else if decide (length (moves (state (this w'))) = 9) then
           withState (set_winner None) (withState (set_status OVER) w')
         else w', Return tt)
    end.
Proof.
  unfold TicTacToeGameB.applyMove.
  unfold bind at 1. unfold getState at 1, gets at 1. cbn beta iota.
  assert (Hm : (if bool_decide (x (state (this w)) = Some (playerID mv))
                then assignGamePiece (move mv) PieceX
                else assignGamePiece (move mv) PieceO) w = (marked w mv, Return tt)).
  { unfold marked, markOf, assignGamePiece, modify.
    case_bool_decide; [by rewrite decide_True|by rewrite decide_False]. }
  rewrite (bind_Return _ _ _ _ _ Hm).
  unfold bind at 1. unfold getState at 1, gets at 1. cbn beta iota.
  unfold bind at 1.
  change (moves (state (this (marked w mv)))) with (moves (state (this w))) at 1.
  change (this w) with (this (marked w mv)) at 1.
  rewrite _moveIsValidB_run. rewrite checked_marked.
  destruct (validation w mv) as [message|]; [done|].
  unfold when, bind, getState, gets, assignState, modify, ret. cbn beta iota zeta.
  fold (appended (marked w mv) mv).
  unfold TicTacToeGameB._gameHasTied.
  destruct (TicTacToeGameB._playerHasWon _ (appended (marked w mv) mv)); [done|].
  destruct (decide (length (moves (state (this (appended (marked w mv) mv)))) = 9)) as [H9|H9].
  - by rewrite (bool_decide_eq_true_2 _ H9).
  - by rewrite (bool_decide_eq_false_2 _ H9).
Qed.

Lemma applyMove_run_validation mv w :
  applyMove mv w =
    match validation w mv with
    | Some message => (marked w mv, Throw (InvalidParametersError message))
    | None => (settled (appended (marked w mv) mv) mv, Return tt)
    end.
Proof. rewrite applyMove_run, checked_marked. by destruct (validation w mv). Qed.

(** The log and its cells once an accepted move is appended. *)
Lemma log_appended_marked w mv :
  validation w mv = None →
  log (appended (marked w mv) mv) =
    log w ++ [mkMove (markOf (state (this w)) (playerID mv))
                     (col (objects w (move mv))) (row (objects w (move mv)))].
Proof.
  intros (_ & Hfree & _)%validation_None.
  rewrite log_appended, marked_objects_eq, log_marked; [done|].
  by apply free_not_recorded.
Qed.

Lemma NoDup_appended_marked w mv :
  validation w mv = None → NoDup (cell <$> log w) →
  NoDup (cell <$> log (appended (marked w mv) mv)).
Proof.
  intros Hv Hnd. rewrite log_appended_marked by done.
  apply validation_None in Hv as (_ & Hfree & _).
  rewrite fmap_app. apply NoDup_app. repeat split; [done| |apply NoDup_singleton].
  intros cl Hcl ->%list_elem_of_singleton. by apply Hfree.
Qed.

Lemma marks_on_snoc_other l piece ms m :
  gamePiece m ≠ piece → marks_on l piece (ms ++ [m]) = marks_on l piece ms.
Proof.
  intros Hp. unfold marks_on. rewrite filter_app, length_app.
  rewrite filter_cons_False, filter_nil by tauto. cbn. lia.
Qed.

(** X14. The two versions of [applyMove] do the same, on the world and in
    what they return or throw, when the log has no two moves on one cell
    and the mark the mover does not play holds no complete line: the second
    version's win test looks at both marks, the first at the mover's. *)
Theorem applyMove_versions_agree w mv :
  NoDup (cell <$> log w) →
  ¬ has_line (opposite (markOf (state (this w)) (playerID mv))) (log w) →
  TicTacToeGameB.applyMove mv w = applyMove mv w.
Proof.
  intros Hnd Hother. rewrite applyMoveB_run, applyMove_run_validation.
  destruct (validation w mv) as [message|] eqn:Hv; [done|]. cbn zeta.
  set (piece := markOf (state (this w)) (playerID mv)) in *.
  pose proof (log_appended_marked w mv Hv) as Hlog.
  pose proof (NoDup_appended_marked w mv Hv Hnd) as Hnd'.
  set (w' := appended (marked w mv) mv) in *.
  assert (Hpiece : gamePiece (objects w' (move mv)) = piece).
  { unfold w', appended. cbn [objects]. by rewrite marked_objects_eq. }
  assert (Hwon : TicTacToeGameB._playerHasWon (moves (state (this w'))) w'
                 = _playerHasWon mv w').
  { apply eq_true_iff_eq.
    unfold TicTacToeGameB._playerHasWon. fold (log w').
    rewrite hasWonLoop_has_line, _playerHasWon_has_line, Hpiece by done.
    split; [|by exists piece].
    intros [q Hq]. destruct (decide (q = piece)) as [->|Hne]; [done|].
    destruct Hother. destruct Hq as [l Hl]. exists l.
    unfold holds_three in *. fold piece in Hlog.
    rewrite Hlog, marks_on_snoc_other in Hl by (cbn; congruence).
    by destruct q, piece. }
  unfold settled. by rewrite Hwon.
Qed.

Lemma applyMove_versions_agree_witness :
  TicTacToeGameB.applyMove (mkGameMove "p1" "g" 4) started
  = applyMove (mkGameMove "p1" "g" 4) started.
Proof.
  apply (applyMove_versions_agree started (mkGameMove "p1" "g" 4)).
  - vm_compute. apply NoDup_nil_2.
  - intros [l Hl]. vm_compute in Hl. lia.
Defined.

Lemma marks_on_app_le l piece ms ms' : marks_on l piece ms ≤ marks_on l piece (ms ++ ms').
Proof. unfold marks_on. rewrite filter_app, length_app. lia. Qed.

(** X15. The two versions of [applyMove] accept and reject the same moves:
    whatever the world, both return or both throw the same error, and after
    a rejected move both leave the same world behind. *)
Theorem applyMove_versions_reject_alike w mv :
  completion (TicTacToeGameB.applyMove mv w) = completion (applyMove mv w) ∧
  (completion (applyMove mv w) ≠ Return tt →
   after (TicTacToeGameB.applyMove mv w) = after (applyMove mv w)).
Proof.
  rewrite applyMoveB_run, applyMove_run_validation.
  by destruct (validation w mv).
Qed.

(** What an accepted move of the second version leaves behind. *)
Lemma applyMoveB_settles w mv :
  NoDup (cell <$> log w) →
  validation w mv = None →
  let w' := after (TicTacToeGameB.applyMove mv w) in
  let won := ∃ piece l, line_complete l piece (log w') in
  log w' = log w ++ [mkMove (markOf (state (this w)) (playerID mv))
                            (col (objects w (move mv))) (row (objects w (move mv)))] ∧
  (won → statusOf w' = OVER ∧ winnerOf w' = Some (playerID mv)) ∧
  (¬ won → length (log w') = 9 → statusOf w' = OVER ∧ winnerOf w' = None) ∧
  (¬ won → length (log w') ≠ 9 → statusOf w' = statusOf w ∧ winnerOf w' = winnerOf w).
Proof.
  intros Hnd Hv. rewrite applyMoveB_run, Hv.
  cbn zeta. unfold after. cbn [fst].
  pose proof (log_appended_marked w mv Hv) as Hlog.
  pose proof (NoDup_appended_marked w mv Hv Hnd) as Hnd'.
  set (w' := appended (marked w mv) mv) in *.
  assert (Hlen : length (log w') = length (moves (state (this w')))) by apply length_log.
  assert (Hst : statusOf w' = statusOf w) by done.
  assert (Hwin : winnerOf w' = winnerOf w) by done.
  assert (Hwon : TicTacToeGameB._playerHasWon (moves (state (this w'))) w' = true
                 ↔ ∃ piece l, line_complete l piece (log w')).
  { unfold TicTacToeGameB._playerHasWon. fold (log w').
    rewrite hasWonLoop_has_line by done. unfold has_line.
    split; intros (piece & l & Hl); exists piece, l;
      by apply (holds_three_complete l piece _ Hnd'). }
  destruct (TicTacToeGameB._playerHasWon _ w').
  - assert (Hyes : ∃ piece l, line_complete l piece (log w')) by by apply Hwon.
    repeat split; try done; by intros [].
  - assert (Hno : ¬ ∃ piece l, line_complete l piece (log w'))
      by (intros ?%Hwon; done).
    destruct (decide (length (moves (state (this w'))) = 9)) as [H9|H9].
    + change (log (withState _ (withState _ w'))) with (log w').
      split; [done|]. split; [tauto|]. split; [done|]. intros _ Hl. lia.
    + split; [done|]. split; [tauto|]. split; [|done]. intros _ Hl. lia.
Qed.

Lemma applyMoveB_Return w mv :
  completion (TicTacToeGameB.applyMove mv w) = Return tt ↔ validation w mv = None.
Proof. rewrite applyMoveB_run. by destruct (validation w mv). Qed.

(** A reopened game: alice has won on row 0 and left, carol has joined. *)
Lemma reopened_reachable :
  reachable (run [ApplyMove (mkGameMove "p1" "g" 0); ApplyMove (mkGameMove "p2" "g" 3);
                  ApplyMove (mkGameMove "p1" "g" 1); ApplyMove (mkGameMove "p2" "g" 4);
                  ApplyMove (mkGameMove "p1" "g" 2); Leave alice; Join carol] started).
Proof. unfold started. do 2 apply reachable_run. apply reachable_new. Qed.

(** X16. An accepted move of the second version, on a log without two
    moves on one cell: the move is appended with the mark deduced from the
    mover; the game is over with the mover as winner when afterwards all
    three cells of some line carry one mark, be it the mover's or not; it
    is over without a winner when there is no such line and the log holds
    nine moves; otherwise status and winner stay. *)
Theorem applyMoveB_accepted w mv :
  NoDup (cell <$> log w) →
  completion (TicTacToeGameB.applyMove mv w) = Return tt →
  let w' := after (TicTacToeGameB.applyMove mv w) in
  let won := ∃ piece l, line_complete l piece (log w') in
  log w' = log w ++ [mkMove (markOf (state (this w)) (playerID mv))
                            (col (objects w (move mv))) (row (objects w (move mv)))] ∧
  (won → statusOf w' = OVER ∧ winnerOf w' = Some (playerID mv)) ∧
  (¬ won → length (log w') = 9 → statusOf w' = OVER ∧ winnerOf w' = None) ∧
  (¬ won → length (log w') ≠ 9 → statusOf w' = statusOf w ∧ winnerOf w' = winnerOf w).
Proof. intros Hnd Hv%applyMoveB_Return. by apply applyMoveB_settles. Qed.

Lemma applyMoveB_accepted_witness :
  let w := run [ApplyMove (mkGameMove "p1" "g" 0); ApplyMove (mkGameMove "p2" "g" 3);
                ApplyMove (mkGameMove "p1" "g" 1); ApplyMove (mkGameMove "p2" "g" 4)]
               started in
  log (after (TicTacToeGameB.applyMove (mkGameMove "p1" "g" 2) w))
  = log w ++ [mkMove PieceX G2 G0].
Proof.
  cbn zeta.
  apply (applyMoveB_accepted
           (run [ApplyMove (mkGameMove "p1" "g" 0); ApplyMove (mkGameMove "p2" "g" 3);
                 ApplyMove (mkGameMove "p1" "g" 1); ApplyMove (mkGameMove "p2" "g" 4)]
                started)
           (mkGameMove "p1" "g" 2)).
  - apply reachable_NoDup_cells.
    unfold started. do 2 apply reachable_run. apply reachable_new.
  - vm_compute. reflexivity.
Defined.

(** X17. Where the versions of [applyMove] part: on a log without two
    moves on one cell in which the mark the mover does not play already
    holds a complete line (a game reopened after a win), an accepted move
    that completes no line of the mover and does not fill the board ends
    the game with the mover as winner in the second version and leaves it
    in progress in the first. *)
Theorem applyMove_versions_differ w mv :
  NoDup (cell <$> log w) →
  completion (applyMove mv w) = Return tt →
  has_line (opposite (markOf (state (this w)) (playerID mv))) (log w) →
  ¬ has_line (markOf (state (this w)) (playerID mv)) (log (after (applyMove mv w))) →
  length (log w) ≠ 8 →
  statusOf (after (TicTacToeGameB.applyMove mv w)) = OVER ∧
  winnerOf (after (TicTacToeGameB.applyMove mv w)) = Some (playerID mv) ∧
  statusOf (after (applyMove mv w)) = IN_PROGRESS ∧
  winnerOf (after (applyMove mv w)) = winnerOf w.
Proof.
  intros Hnd Hv%applyMove_Return [l Hother] Hmine Hlen.
  destruct (applyMoveB_settles w mv Hnd Hv) as (HlogB & HwonB & _).
  destruct (accepted_move_settles w mv Hv) as (Hlog & _ & _ & Hstay).
  cbn zeta in *.
  assert (Hnd' : NoDup (cell <$> log (after (TicTacToeGameB.applyMove mv w)))).
  { rewrite HlogB, <- (log_appended_marked w mv Hv).
    by apply NoDup_appended_marked. }
  split_and!.
  - apply HwonB. exists (opposite (markOf (state (this w)) (playerID mv))), l.
    apply (holds_three_complete _ _ _ Hnd'). rewrite HlogB.
    unfold holds_three in *.
    etrans; [exact Hother|apply marks_on_app_le].
  - apply HwonB. exists (opposite (markOf (state (this w)) (playerID mv))), l.
    apply (holds_three_complete _ _ _ Hnd'). rewrite HlogB.
    unfold holds_three in *.
    etrans; [exact Hother|apply marks_on_app_le].
  - destruct Hstay as [-> _]; [done| |by apply validation_None in Hv as (? & _)].
    rewrite Hlog, length_app. cbn [length]. lia.
  - destruct Hstay as [_ ->]; [done| |done].
    rewrite Hlog, length_app. cbn [length]. lia.
Qed.

Lemma applyMove_versions_differ_witness :
  let w := run [ApplyMove (mkGameMove "p1" "g" 0); ApplyMove (mkGameMove "p2" "g" 3);
                ApplyMove (mkGameMove "p1" "g" 1); ApplyMove (mkGameMove "p2" "g" 4);
                ApplyMove (mkGameMove "p1" "g" 2); Leave alice; Join carol] started in
  statusOf (after (TicTacToeGameB.applyMove (mkGameMove "p3" "g" 8) w)) = OVER ∧
  winnerOf (after (TicTacToeGameB.applyMove (mkGameMove "p3" "g" 8) w)) = Some "p3" ∧
  statusOf (after (applyMove (mkGameMove "p3" "g" 8) w)) = IN_PROGRESS ∧
  winnerOf (after (applyMove (mkGameMove "p3" "g" 8) w)) = winnerOf w.
Proof.
  cbn zeta.
  apply (applyMove_versions_differ
           (run [ApplyMove (mkGameMove "p1" "g" 0); ApplyMove (mkGameMove "p2" "g" 3);
                 ApplyMove (mkGameMove "p1" "g" 1); ApplyMove (mkGameMove "p2" "g" 4);
                 ApplyMove (mkGameMove "p1" "g" 2); Leave alice; Join carol] started)
           (mkGameMove "p3" "g" 8)).
  - apply reachable_NoDup_cells, reopened_reachable.
  - vm_compute. reflexivity.
  - exists (RowLine G0). vm_compute. lia.
  - intros [l Hl]. destruct l as [[]|[]| |]; vm_compute in Hl; lia.
  - vm_compute. lia.
Defined.

(** ** [_leave] in the two versions *)

Lemma _leaveB_run player w :
  TicTacToeGameB._leave player w =
    if decide (player ∉ _players (this w)) then
      (w, Throw (InvalidParametersError PLAYER_NOT_IN_GAME_MESSAGE))
    else
      match _players (this w) with
      | [_] => (withState (set_status WAITING_TO_START) w, Return tt)
      | [p0; p1] =>
          (withState (set_winner (Some (if decide (Player.id p0 = Player.id player)
                                        then Player.id p1 else Player.id p0)))
             (withState (set_status OVER) w), Return tt)
      | _ => (w, Return tt)
      end.
Proof.
  destruct w as [objs [gid st players]].
  unfold TicTacToeGameB._leave. eff_unfold. unfold withState. simpl.
  rewrite bool_decide_decide. destruct (decide (player ∉ players)); [done|].
  destruct players as [|p0 [|p1 [|p2 rest]]]; simpl; try done.
  rewrite bool_decide_decide. by destruct (decide (Player.id p0 = Player.id player)).
Qed.

(** X18. The two versions of [_leave] do the same on every game of at most
    two players whose status is IN_PROGRESS exactly when it has two
    players: the first decides by the status, the second by the number of
    players. *)
Theorem _leave_versions_agree w player :
  length (playersOf w) ≤ 2 →
  (statusOf w = IN_PROGRESS ↔ length (playersOf w) = 2) →
  TicTacToeGameB._leave player w = _leave player w.
Proof.
  unfold playersOf, statusOf. intros Hlen Hiff.
  rewrite _leaveB_run, _leave_run.
  destruct (decide (player ∉ _players (this w))) as [|Hin]; [done|].
  destruct (_players (this w)) as [|p0 [|p1 [|p2 rest]]] eqn:Hp; cbn [length] in *.
  - destruct Hin. apply not_elem_of_nil.
  - destruct (decide (status (state (this w)) = IN_PROGRESS)) as [Hs%Hiff|Hs]; [lia|done].
  - destruct (decide (status (state (this w)) = IN_PROGRESS)) as [Hs|Hs];
      [|destruct Hs; by apply Hiff].
    by destruct (decide (Player.id p0 = Player.id player)).
  - lia.
Qed.

Lemma _leave_versions_agree_witness :
  TicTacToeGameB._leave bob started = _leave bob started.
Proof.
  apply (_leave_versions_agree started bob).
  - vm_compute. lia.
  - vm_compute. split; intros _; reflexivity.
Defined.

(** X19. The two versions of [_leave] part on a finished game that still
    holds its two players: the first sets it back to WAITING_TO_START and
    keeps the recorded winner, the second keeps it OVER and overwrites the
    winner with the player who stays. *)
Theorem _leave_versions_differ w player p0 p1 :
  statusOf w = OVER →
  playersOf w = [p0; p1] →
  player ∈ playersOf w →
  completion (_leave player w) = Return tt ∧
  statusOf (after (_leave player w)) = WAITING_TO_START ∧
  winnerOf (after (_leave player w)) = winnerOf w ∧
  completion (TicTacToeGameB._leave player w) = Return tt ∧
  statusOf (after (TicTacToeGameB._leave player w)) = OVER ∧
  winnerOf (after (TicTacToeGameB._leave player w)) =
    Some (if decide (Player.id p0 = Player.id player) then Player.id p1 else Player.id p0).
Proof.
  unfold playersOf, statusOf, winnerOf. intros Hs Hp Hin.
  rewrite _leaveB_run, _leave_run, Hp. rewrite Hp in Hin.
  destruct (decide (player ∉ [p0; p1])) as [Hn|_]; [by destruct Hn|].
  rewrite decide_False by congruence.
  done.
Qed.

Lemma _leave_versions_differ_witness :
  let w := run [ApplyMove (mkGameMove "p1" "g" 0); ApplyMove (mkGameMove "p2" "g" 3);
                ApplyMove (mkGameMove "p1" "g" 1); ApplyMove (mkGameMove "p2" "g" 4);
                ApplyMove (mkGameMove "p1" "g" 2)] started in
  winnerOf w = Some "p1" ∧
  winnerOf (after (TicTacToeGameB._leave alice w)) = Some "p2".
Proof.
  cbn zeta. split; [vm_compute; reflexivity|].
  apply (_leave_versions_differ
           (run [ApplyMove (mkGameMove "p1" "g" 0); ApplyMove (mkGameMove "p2" "g" 3);
                 ApplyMove (mkGameMove "p1" "g" 1); ApplyMove (mkGameMove "p2" "g" 4);
                 ApplyMove (mkGameMove "p1" "g" 2)] started)
           alice alice bob).
  - vm_compute. reflexivity.
  - vm_compute. reflexivity.
  - vm_compute. apply list_elem_of_here.
Defined.

(** * The second version of the router *)

(** X20. A leave handled by the second version of the router that returns
    with the game over appends one record: the player who left scores 0,
    and the score 1 goes to the first occupant of the area when that
    occupant carries another user name, whether or not the occupant plays,
    else to the second occupant. *)
Theorem leaveB_record gid player g w ret :
  gameOf w = Some g →
  completion (TicTacToeGameAreaB._handleLeaveCommand gid player w) = Return ret →
  statusIn (after (TicTacToeGameAreaB._handleLeaveCommand gid player w)) = Some OVER →
  ∃ o0 credited,
    occupantsOf w !! 0 = Some o0 ∧
    (if decide (Player.userName o0 ≠ Player.userName player)
     then credited = Player.userName o0
     else ∃ o1, occupantsOf w !! 1 = Some o1 ∧ credited = Player.userName o1) ∧
    historyOf (after (TicTacToeGameAreaB._handleLeaveCommand gid player w)) =
      historyOf w ++ [GameResult.mk (id g)
                        (scoresOf credited 1 (Player.userName player) 0)] ∧
    scoresOf credited 1 (Player.userName player) 0 !! Player.userName player = Some 0.
Proof.
  unfold statusIn. destruct w as [objs [g0 hist occ n]].
  cbn [TicTacToeGameArea._game TicTacToeGameArea._occupants
       TicTacToeGameArea._history TicTacToeGameArea.this].
  intros ->. unfold TicTacToeGameAreaB._handleLeaveCommand.
  area_unfold. simpl.
  case_bool_decide; [done|]. simpl.
  destruct (leave player _) as [gw' [[]|e]] eqn:Hl; simpl; [|done].
  case_bool_decide as Hs; simpl; [|intros _ [= ?]; done].
  destruct occ as [|o0 [|o1 occ']]; simpl; [done| |].
  - case_bool_decide as Hn; simpl; [|done].
    intros _ _. exists o0, (Player.userName o0).
    rewrite decide_True by done.
    split_and!; try done.
    unfold TicTacToeGameArea.scoresOf. apply lookup_insert_eq.
  - case_bool_decide as Hn; simpl.
    + intros _ _. exists o0, (Player.userName o0).
      rewrite decide_True by done.
      split_and!; try done.
      unfold TicTacToeGameArea.scoresOf. apply lookup_insert_eq.
    + intros _ _. exists o0, (Player.userName o1).
      destruct (decide (Player.userName o0 ≠ Player.userName player)) as [Hne|_];
        [by destruct Hne|].
      split_and!; try done; [by exists o1|].
      unfold TicTacToeGameArea.scoresOf. apply lookup_insert_eq.
Qed.

Lemma leaveB_record_witness :
  let w := handle [(JoinGame, alice); (JoinGame, bob)] (areaWorld [dave; alice; bob]) in
  ∃ o0 credited,
    occupantsOf w !! 0 = Some o0 ∧
    (if decide (Player.userName o0 ≠ Player.userName alice)
     then credited = Player.userName o0
     else ∃ o1, occupantsOf w !! 1 = Some o1 ∧ credited = Player.userName o1) ∧
    historyOf (after (TicTacToeGameAreaB._handleLeaveCommand "g" alice w)) =
      historyOf w ++ [GameResult.mk "g" (scoresOf credited 1 (Player.userName alice) 0)] ∧
    scoresOf credited 1 (Player.userName alice) 0 !! Player.userName alice = Some 0.
Proof.
  cbn zeta.
  apply (leaveB_record "g" alice
           (mkGame "g" (mkState [] IN_PROGRESS (Some "p1") (Some "p2") None) [alice; bob])
           (handle [(JoinGame, alice); (JoinGame, bob)] (areaWorld [dave; alice; bob]))
           Undefined).
  - vm_compute. reflexivity.
  - vm_compute. reflexivity.
  - vm_compute. reflexivity.
Defined.

(** * The records of the router between the two participants *)

(** X21. A move command that the engine accepts, in an area whose first
    two occupants are the mover and the other participant under different
    user names: when the game is over with a winner the ledger gains one
    record scoring the mover 1 and the other 0, when it is over without a
    winner one record scoring both 0, and when it is not over the ledger
    stays; the command returns undefined and the area change is emitted
    once. *)
Theorem move_record_between_participants gid g player other rest move w :
  gameOf w = Some g →
  (occupantsOf w = player :: other :: rest ∨
   occupantsOf w = other :: player :: rest) →
  Player.userName player ≠ Player.userName other →
  let mv := mkGameMove (Player.id player) (id g) move in
  let e := after (applyMove mv (engineWorld w g)) in
  let r := handleCommand gid (GameMoveCommand (id g) move) player w in
  completion (applyMove mv (engineWorld w g)) = Return tt →
  completion r = Return Undefined ∧
  emittedOf (after r) = S (emittedOf w) ∧
  (statusOf e = OVER → winnerOf e ≠ None →
   historyOf (after r) =
     historyOf w ++ [GameResult.mk (id g)
                       {[ Player.userName player := 1; Player.userName other := 0 ]}]) ∧
  (statusOf e = OVER → winnerOf e = None →
   historyOf (after r) =
     historyOf w ++ [GameResult.mk (id g)
                       {[ Player.userName player := 0; Player.userName other := 0 ]}]) ∧
  (statusOf e ≠ OVER → historyOf (after r) = historyOf w).
Proof.
  cbn zeta. unfold statusOf, winnerOf.
  destruct w as [objs [g0 hist occ n]].
  cbn [TicTacToeGameArea._game TicTacToeGameArea._occupants TicTacToeGameArea._history
       TicTacToeGameArea.areaChangedEmitted TicTacToeGameArea.this].
  intros -> Hocc Hname.
  area_unfold. simpl.
  rewrite bool_decide_eq_false_2 by (intros H; by apply H). simpl.
  destruct (applyMove _ _) as [gw' [[]|e]]; simpl; [|done].
  intros _.
  assert (Hkeys : ∀ (a b : string) (va vb : nat),
            scoresOf b vb a va = {[ a := va; b := vb ]}).
  { intros. unfold TicTacToeGameArea.scoresOf. by rewrite insert_empty. }
  assert (Hswap : ∀ (va vb : nat),
            scoresOf (Player.userName player) va (Player.userName other) vb
            = {[ Player.userName player := va; Player.userName other := vb ]}).
  { intros. unfold TicTacToeGameArea.scoresOf.
    by rewrite insert_insert_ne, insert_empty. }
  case_bool_decide as Hs; simpl.
  - destruct (winner (state (this gw'))) as [pid|]; simpl.
    + destruct Hocc as [-> | ->]; simpl.
      * rewrite bool_decide_eq_false_2 by (intros H; by apply H). simpl.
        rewrite Hswap. split_and!; done.
      * rewrite bool_decide_eq_true_2 by done. simpl.
        rewrite Hswap. split_and!; done.
    + destruct Hocc as [-> | ->]; simpl.
      * rewrite Hswap. split_and!; done.
      * rewrite Hkeys. split_and!; done.
  - split_and!; done.
Qed.

Lemma move_record_between_participants_witness :
  let w := handle [(JoinGame, alice); (JoinGame, bob);
                   (GameMoveCommand "g" 0, alice); (GameMoveCommand "g" 3, bob);
                   (GameMoveCommand "g" 1, alice); (GameMoveCommand "g" 4, bob)]
                  (areaWorld [alice; bob]) in
  historyOf (after (handleCommand "g" (GameMoveCommand "g" 2) alice w)) =
    historyOf w ++ [GameResult.mk "g" {[ "alice" := 1; "bob" := 0 ]}].
Proof.
  cbn zeta.
  apply (move_record_between_participants "g"
           (mkGame "g" (mkState [0; 3; 1; 4] IN_PROGRESS (Some "p1") (Some "p2") None)
                   [alice; bob])
           alice bob [] 2
           (handle [(JoinGame, alice); (JoinGame, bob);
                    (GameMoveCommand "g" 0, alice); (GameMoveCommand "g" 3, bob);
                    (GameMoveCommand "g" 1, alice); (GameMoveCommand "g" 4, bob)]
                   (areaWorld [alice; bob]))).
  - vm_compute. reflexivity.
  - left. vm_compute. reflexivity.
  - discriminate.
  - vm_compute. reflexivity.
  - vm_compute. reflexivity.
  - vm_compute. discriminate.
Defined.

(** X22. A forfeit between the two participants: when a player of a game
    in progress leaves through the router and the first two occupants of
    the area are the two players, the command returns undefined, the game
    is over and won by the player who stays, the area change is emitted
    once, and the ledger gains one record: the score 1 under the name of
    the player who stays, then the score 0 written under the name of the
    one who left. *)
Theorem forfeit_between_participants gid g player other rest w :
  gameOf w = Some g →
  status (state g) = IN_PROGRESS →
  (_players g = [player; other] ∨ _players g = [other; player]) →
  (occupantsOf w = player :: other :: rest ∨
   occupantsOf w = other :: player :: rest) →
  Player.id player ≠ Player.id other →
  let r := handleCommand gid (LeaveGame (id g)) player w in
  completion r = Return Undefined ∧
  statusIn (after r) = Some OVER ∧
  winnerIn (after r) = Some (Some (Player.id other)) ∧
  emittedOf (after r) = S (emittedOf w) ∧
  historyOf (after r) =
    historyOf w ++ [GameResult.mk (id g)
                      (<[Player.userName player := 0]> {[ Player.userName other := 1 ]})].
Proof.
  cbn zeta. unfold statusIn, winnerIn.
  destruct w as [objs [g0 hist occ n]].
  cbn [TicTacToeGameArea._game TicTacToeGameArea._occupants TicTacToeGameArea._history
       TicTacToeGameArea.areaChangedEmitted TicTacToeGameArea.this].
  intros -> Hs Hplayers Hocc Hid.
  area_unfold. simpl.
  rewrite bool_decide_eq_false_2 by (intros H; by apply H). simpl.
  rewrite leave_run, _leave_run. cbn [this objects].
  rewrite decide_False
    by (intros Hn; apply Hn; destruct Hplayers as [-> | ->];
        [apply list_elem_of_here|apply list_elem_of_further, list_elem_of_here]).
  rewrite decide_True by done.
  unfold TicTacToeGameArea.scoresOf.
  destruct g as [gid0 st players]. cbn [_players state id] in *.
  destruct Hplayers as [-> | ->], Hocc as [-> | ->]; simpl.
  all: repeat (case_decide; simpl; try done; try congruence).
  all: repeat (case_bool_decide; simpl; try done; try congruence).
  all: rewrite ?insert_empty; split_and!; try done.
Qed.

Lemma forfeit_between_participants_witness :
  let w := handle [(JoinGame, alice); (JoinGame, bob)] (areaWorld [alice; bob]) in
  historyOf (after (handleCommand "g" (LeaveGame "g") bob w)) =
    historyOf w ++ [GameResult.mk "g" (<["bob" := 0]> {[ "alice" := 1 ]})].
Proof.
  cbn zeta.
  apply (forfeit_between_participants "g"
           (mkGame "g" (mkState [] IN_PROGRESS (Some "p1") (Some "p2") None) [alice; bob])
           bob alice []
           (handle [(JoinGame, alice); (JoinGame, bob)] (areaWorld [alice; bob]))).
  - vm_compute. reflexivity.
  - reflexivity.
  - by right.
  - right. vm_compute. reflexivity.
  - discriminate.
Defined.
